(** * clawdbot: the streaming chat-completion pipeline

    A shallow embedding of

    - [clawdbot/agents/providers/openai_provider.py] (module [Provider]):
      the upstream stream normalizer [OpenAIProvider.stream], which turns raw
      provider chunks into [LLMResponse] events and reassembles tool calls;
    - [clawdbot/agents/tools/skill_loader.py] (modules [Skills] and
      [Prompt]), [prompt_manager.py] and [read_skill.py]: skill matching and
      the assembly of the system prompt;
    - [clawdbot/auth/api_keys.py] (module [ApiKeys]): the key manager;
    - [clawdbot/api/openai_compat.py] (module [Compat]): session ingestion of
      a [/v1/chat/completions] request and the streaming wire encoder
      [stream_response].

    The module [openai_compat.py] is not well-formed Python as it stands: in
    the non-streaming branch of [chat_completions] (lines 398-448) the [try:]
    that the [except] of line 446 belongs to is missing and the body is
    indented one level too deep, so the interpreter rejects the file with an
    [IndentationError] when the module is imported, and no request is
    served.  Lines 209-394 are well-formed by themselves.  [Compat] embeds
    these lines as they are written: what is proved there is a property of
    the ingestion and of the streaming path as written, that is, of the
    module once the non-streaming branch lets it load.  The non-streaming
    branch itself is not embedded.

    Python values are modelled as follows.  [str] is [string], one element
    per character, for texts whose characters have codes below 256; [int] is
    [Z]; [None]-able attributes are [option]; a [dict] whose iteration order
    matters (the tool-call buffer, the keys of the key manager) is an
    association list kept in insertion order; a dictionary used as a map is a
    [gmap].  An [async] generator is the list of values it yields.  A call
    that can raise returns an [Outcome], or an [option] whose [None] is the
    exception, where the code does not tell exceptions apart. *)

From Stdlib Require Import ZArith Ascii String.
From stdpp Require Import base option list strings gmap pretty.

Local Open Scope Z_scope.
Set Warnings "-register-all".

(** ** Python truthiness of optional strings *)

(** [bool(x)] for [x : str | None]: [None] and the empty string are falsy. *)
Definition truthy (o : option string) : bool :=
  match o with
  | Some EmptyString => false
  | Some _ => true
  | None => false
  end.

(** [x or d] for [x : str | None]. *)
Definition str_or (o : option string) (d : string) : string :=
  match o with
  | Some EmptyString => d
  | Some s => s
  | None => d
  end.

(** The double-quote character (code 34) and a string between double
    quotes. *)
Abbreviation DQ := (Ascii false true false false false true false false).

Definition quoted (s : string) : string := String DQ (s +:+ String DQ "").

(** ** Calls that can raise *)

(** What a call gives: the value it returns, or the exception it raises, by
    its text [str(e)]. *)
Inductive Outcome (A : Type) :=
| Returns (a : A)
| Raises (message : string).

Arguments Returns {A} a.
Arguments Raises {A} message.

#[export] Instance Outcome_bind : MBind Outcome :=
  λ A B f m, match m with
             | Returns a => f a
             | Raises e => Raises e
             end.

#[export] Instance Outcome_fmap : FMap Outcome :=
  λ A B f m, match m with
             | Returns a => Returns (f a)
             | Raises e => Raises e
             end.

(** ** JSON values and the [json] codec *)

Module Json.

(** A decoded Python string: a sequence of Unicode code points. *)
Definition ustring := list N.

(** The Python value [json.loads] returns.  [Obj] is a [dict]: its members
    are kept in insertion order, keys are unique. *)
Inductive value : Type :=
| Null
| Bool (b : bool)
| Int (z : Z)
| Float (lexeme : string)
| Str (s : ustring)
| Arr (items : list value)
| Obj (members : list (ustring * value)).

(** [isinstance(v, dict)] *)
Definition is_dict (v : value) : bool :=
  match v with Obj _ => true | _ => false end.

(** [d[k] = v] on an insertion-ordered dictionary. *)
Fixpoint dict_set {K V} `{EqDecision K} (k : K) (v : V) (d : list (K * V))
  : list (K * V) :=
  match d with
  | [] => [(k, v)]
  | (k', v') :: d' =>
      if decide (k = k') then (k', v) :: d' else (k', v') :: dict_set k v d'
  end.

(** What [json.loads] does with a text: it returns a value ([Found]), it
    raises [json.JSONDecodeError] because the text is not JSON
    ([Malformed]), or it raises another exception ([Refused], with the text
    of the exception): [ValueError] for an integer literal of more digits
    than the interpreter converts, [RecursionError] for objects and arrays
    nested deeper than the interpreter's stack allows. *)
Inductive Scan (A : Type) :=
| Found (a : A)
| Malformed
| Refused (message : string).

Arguments Found {A} a.
Arguments Malformed {A}.
Arguments Refused {A} message.

#[export] Instance Scan_bind : MBind Scan :=
  λ A B f m, match m with
             | Found a => f a
             | Malformed => Malformed
             | Refused e => Refused e
             end.

Definition of_option {A} (o : option A) : Scan A :=
  match o with
  | Some a => Found a
  | None => Malformed
  end.

(** *** A reference codec

    [loads] and [dumps] follow the grammar and the defaults of Python's
    [json.loads] and [json.dumps] ([strict] decoding, [ensure_ascii],
    separators [", "] and [": "]).  A character of the text is read as the
    code point of its number, below 256.  A number with a fraction or an
    exponent is kept as [Float] with the text of the literal; Python prints
    the [repr] of its value. *)

Definition is_ws (c : ascii) : bool :=
  match c with
  | " " | "009" | "010" | "013" => true
  | _ => false
  end%char.

Fixpoint skip_ws (s : list ascii) : list ascii :=
  match s with
  | c :: r => if is_ws c then skip_ws r else s
  | [] => []
  end.

Definition digit_val (c : ascii) : option N :=
  let n := N_of_ascii c in
  if ((48 <=? n) && (n <=? 57))%N then Some (n - 48)%N else None.

Definition hex_val (c : ascii) : option N :=
  let n := N_of_ascii c in
  if ((48 <=? n) && (n <=? 57))%N then Some (n - 48)%N
  else if ((65 <=? n) && (n <=? 70))%N then Some (n - 55)%N
  else if ((97 <=? n) && (n <=? 102))%N then Some (n - 87)%N
  else None.

(** The four hexadecimal digits of a [\uXXXX] escape. *)
Definition decode_uXXXX (s : list ascii) : option (N * list ascii) :=
  match s with
  | a :: b :: c :: d :: r =>
      match hex_val a, hex_val b, hex_val c, hex_val d with
      | Some x, Some y, Some z, Some w =>
          Some ((((x * 16 + y) * 16 + z) * 16 + w)%N, r)
      | _, _, _, _ => None
      end
  | _ => None
  end.

Definition simple_escape (c : ascii) : option N :=
  match c with
  | DQ => Some 34 | "\" => Some 92 | "/" => Some 47
  | "b" => Some 8 | "f" => Some 12 | "n" => Some 10
  | "r" => Some 13 | "t" => Some 9
  | _ => None
  end%char%N.

(** The body of a string literal, after its opening quote. *)
Fixpoint scanstring (fuel : nat) (s : list ascii) (acc : ustring)
  : option (ustring * list ascii) :=
  match fuel with
  | O => None
  | S fuel' =>
      match s with
      | [] => None
      | DQ :: r => Some (reverse acc, r)
      | "\"%char :: "u"%char :: r =>
          match decode_uXXXX r with
          | None => None
          | Some (uni, r') =>
              if ((55296 <=? uni) && (uni <=? 56319))%N then
                match r' with
                | "\"%char :: "u"%char :: r2 =>
                    match decode_uXXXX r2 with
                    | None => None
                    | Some (uni2, r3) =>
                        if ((56320 <=? uni2) && (uni2 <=? 57343))%N
                        then scanstring fuel' r3
                               ((65536 + N.lor (N.shiftl (uni - 55296) 10)
                                               (uni2 - 56320))%N :: acc)
                        else scanstring fuel' r' (uni :: acc)
                    end
                | _ => scanstring fuel' r' (uni :: acc)
                end
              else scanstring fuel' r' (uni :: acc)
          end
      | "\"%char :: e :: r =>
          match simple_escape e with
          | Some c => scanstring fuel' r (c :: acc)
          | None => None
          end
      | "\"%char :: [] => None
      | c :: r =>
          if (N_of_ascii c <? 32)%N then None
          else scanstring fuel' r (N_of_ascii c :: acc)
      end
  end.

Fixpoint take_digits (s : list ascii) : list ascii * list ascii :=
  match s with
  | c :: r =>
      match digit_val c with
      | Some _ => let '(ds, r') := take_digits r in (c :: ds, r')
      | None => ([], s)
      end
  | [] => ([], [])
  end.

Definition digits_value (ds : list ascii) : Z :=
  foldl (λ acc c, 10 * acc + Z.of_N (default 0%N (digit_val c))) 0 ds.

(** The integer part of a number: an optional minus sign, then either a
    single zero or a non-zero digit followed by digits. *)
Definition scan_integer (s : list ascii)
  : option (bool * list ascii * list ascii) :=
  let '(neg, s1) :=
    match s with
    | "-"%char :: r => (true, r)
    | _ => (false, s)
    end in
  match s1 with
  | "0"%char :: r => Some (neg, ["0"%char], r)
  | c :: _ =>
      match digit_val c with
      | Some _ => let '(ds, r) := take_digits s1 in Some (neg, ds, r)
      | None => None
      end
  | [] => None
  end.

(** The optional fraction: a dot and at least one digit. *)
Definition scan_frac (s : list ascii) : list ascii * list ascii :=
  match s with
  | "."%char :: r =>
      match take_digits r with
      | ([], _) => ([], s)
      | (ds, r') => ("."%char :: ds, r')
      end
  | _ => ([], s)
  end.

(** The optional exponent: [e] or [E], an optional sign, at least one
    digit. *)
Definition scan_exp (s : list ascii) : list ascii * list ascii :=
  match s with
  | e :: r =>
      if bool_decide (e = "e"%char ∨ e = "E"%char) then
        let '(sign, r1) :=
          match r with
          | c :: r' =>
              if bool_decide (c = "-"%char ∨ c = "+"%char)
              then ([c], r') else ([], r)
          | [] => ([], r)
          end in
        match take_digits r1 with
        | ([], _) => ([], s)
        | (ds, r2) => (e :: sign ++ ds, r2)
        end
      else ([], s)
  | [] => ([], s)
  end.

(** [sys.get_int_max_str_digits()]: the number of digits beyond which [int]
    refuses to convert a text (4300 unless the interpreter is configured
    otherwise). *)
Definition int_max_str_digits : nat := 4300.

(** The text of the [ValueError] for a literal of [n] digits, as CPython
    3.11 words it. *)
Definition int_limit_message (n : nat) : string :=
  "Exceeds the limit (" +:+ pretty (Z.of_nat int_max_str_digits)
  +:+ ") for integer string conversion: value has " +:+ pretty (Z.of_nat n)
  +:+ " digits; use sys.set_int_max_str_digits() to increase the limit".

(** A number.  An integer literal (no fraction, no exponent) is converted by
    [int], which raises [ValueError] when the literal has more than
    [int_max_str_digits] digits; the other literals are converted by
    [float]. *)
Definition scan_number (s : list ascii) : Scan (value * list ascii) :=
  match scan_integer s with
  | None => Malformed
  | Some (neg, ds, r) =>
      let '(frac, r1) := scan_frac r in
      let '(exp, r2) := scan_exp r1 in
      match frac, exp with
      | [], [] =>
          if decide (int_max_str_digits < length ds)%nat
          then Refused (int_limit_message (length ds))
          else Found (Int (if neg then - digits_value ds else digits_value ds),
                      r2)
      | _, _ =>
          Found (Float (string_of_list_ascii
                          ((if neg then ["-"%char] else []) ++ ds ++ frac ++ exp)),
                 r2)
      end
  end.

(** [s] starts with the literal [p]: what follows it. *)
Fixpoint strip_prefix (p s : list ascii) : option (list ascii) :=
  match p, s with
  | [], _ => Some s
  | a :: p', b :: s' => if decide (a = b) then strip_prefix p' s' else None
  | _ :: _, [] => None
  end.

Definition scan_constant (s : list ascii) : Scan (value * list ascii) :=
  let lit (name : string) (v : value) :=
    of_option ((λ r, (v, r)) <$> strip_prefix (list_ascii_of_string name) s) in
  match s with
  | "n"%char :: _ => lit "null" Null
  | "t"%char :: _ => lit "true" (Bool true)
  | "f"%char :: _ => lit "false" (Bool false)
  | _ =>
      match scan_number s with
      | Found r => Found r
      | Refused e => Refused e
      | Malformed =>
          match s with
          | "N"%char :: _ => lit "NaN" (Float "NaN")
          | "I"%char :: _ => lit "Infinity" (Float "Infinity")
          | "-"%char :: _ => lit "-Infinity" (Float "-Infinity")
          | _ => Malformed
          end
      end
  end.

(** The text of the [RecursionError] raised on entering an object or an
    array. *)
Definition recursion_message (what : string) : string :=
  "maximum recursion depth exceeded while decoding a JSON " +:+ what
  +:+ " from a unicode string".

(** [scan_once], [JSONObject] (entered after the opening quote of a key) and
    [JSONArray] (entered at an element).  [depth] is the number of nested
    objects and arrays the scanner may still enter: entering one more raises
    [RecursionError].  [fuel] bounds the number of calls and is never
    exhausted on the calls [loads] makes. *)
Fixpoint scan_once (fuel depth : nat) (s : list ascii)
  : Scan (value * list ascii) :=
  match fuel with
  | O => Malformed
  | S fuel' =>
      match s with
      | DQ :: r =>
          '(u, r') ← of_option (scanstring (S (length r)) r []);
          Found (Str u, r')
      | "{"%char :: r =>
          match depth with
          | O => Refused (recursion_message "object")
          | S depth' =>
              match skip_ws r with
              | "}"%char :: r' => Found (Obj [], r')
              | DQ :: r' => scan_members fuel' depth' r' []
              | _ => Malformed
              end
          end
      | "["%char :: r =>
          match depth with
          | O => Refused (recursion_message "array")
          | S depth' =>
              match skip_ws r with
              | "]"%char :: r' => Found (Arr [], r')
              | r' => scan_items fuel' depth' r' []
              end
          end
      | _ => scan_constant s
      end
  end
with scan_members (fuel depth : nat) (s : list ascii)
    (acc : list (ustring * value)) : Scan (value * list ascii) :=
  match fuel with
  | O => Malformed
  | S fuel' =>
      '(key, r) ← of_option (scanstring (S (length s)) s []);
      match skip_ws r with
      | ":"%char :: r1 =>
          '(v, r2) ← scan_once fuel' depth (skip_ws r1);
          let acc' := dict_set key v acc in
          match skip_ws r2 with
          | "}"%char :: r3 => Found (Obj acc', r3)
          | ","%char :: r3 =>
              match skip_ws r3 with
              | DQ :: r4 => scan_members fuel' depth r4 acc'
              | _ => Malformed
              end
          | _ => Malformed
          end
      | _ => Malformed
      end
  end
with scan_items (fuel depth : nat) (s : list ascii) (acc : list value)
  : Scan (value * list ascii) :=
  match fuel with
  | O => Malformed
  | S fuel' =>
      '(v, r) ← scan_once fuel' depth s;
      match skip_ws r with
      | "]"%char :: r1 => Found (Arr (reverse (v :: acc)), r1)
      | ","%char :: r1 => scan_items fuel' depth (skip_ws r1) (v :: acc)
      | _ => Malformed
      end
  end.

(** [json.loads]: one value between optional white space.  [max_depth] is
    the nesting the interpreter has room for when [loads] is called: the
    recursion limit less the frames in use. *)
Definition loads (max_depth : nat) (s : string) : Scan value :=
  let l := list_ascii_of_string s in
  match scan_once (S (S (length l))) max_depth (skip_ws l) with
  | Found (v, r) => match skip_ws r with [] => Found v | _ => Malformed end
  | Malformed => Malformed
  | Refused e => Refused e
  end.

Definition hex_digit (n : N) : ascii :=
  ascii_of_N (if (n <? 10)%N then 48 + n else 87 + n)%N.

(** ['\\u{0:04x}'] *)
Definition escape_u (n : N) : list ascii :=
  "\"%char :: "u"%char ::
  [hex_digit (n / 4096 mod 16); hex_digit (n / 256 mod 16);
   hex_digit (n / 16 mod 16); hex_digit (n mod 16)]%N.

(** One character of [encode_basestring_ascii]. *)
Definition escape_char (c : N) : list ascii :=
  if (c =? 34)%N then ["\"%char; DQ]
  else if (c =? 92)%N then ["\"; "\"]%char
  else if (c =? 10)%N then ["\"; "n"]%char
  else if (c =? 13)%N then ["\"; "r"]%char
  else if (c =? 9)%N then ["\"; "t"]%char
  else if (c =? 8)%N then ["\"; "b"]%char
  else if (c =? 12)%N then ["\"; "f"]%char
  else if ((32 <=? c) && (c <=? 126))%N then [ascii_of_N c]
  else if (c <? 65536)%N then escape_u c
  else
    let n := (c - 65536)%N in
    escape_u (N.lor 55296 (N.land (N.shiftr n 10) 1023))
      ++ escape_u (N.lor 56320 (N.land n 1023)).

Definition encode_string (u : ustring) : string :=
  string_of_list_ascii (DQ :: (u ≫= escape_char) ++ [DQ]).

Fixpoint join (sep : string) (l : list string) : string :=
  match l with
  | [] => ""
  | [x] => x
  | x :: l' => x +:+ sep +:+ join sep l'
  end.

(** [json.dumps] *)
Fixpoint dumps (v : value) : string :=
  match v with
  | Null => "null"
  | Bool true => "true"
  | Bool false => "false"
  | Int z => pretty z
  | Float lexeme => lexeme
  | Str u => encode_string u
  | Arr items => "[" +:+ join ", " (map dumps items) +:+ "]"
  | Obj members =>
      "{" +:+ join ", "
                (map (λ kv, encode_string kv.1 +:+ ": " +:+ dumps kv.2) members)
          +:+ "}"
  end.

End Json.

(** What the provider asks of the interpreter, each call with its ways of
    failing:

    - [json_loads s] is [json.loads(s)];
    - [json_dumps v] is [json.dumps(v)] for a value [json.loads] returned;
      it raises [RecursionError] when the value is nested deeper than the
      stack allows at that point;
    - [py_repr v] is the evaluation of [repr(v)], which the f-string of line
      168 asks for: only whether it raises matters, the text goes to the
      log. *)
Class JsonCodec := {
  json_loads : string → Json.Scan Json.value;
  json_dumps : Json.value → Outcome string;
  py_repr : Json.value → Outcome unit;
}.

(** The recursion limit of a fresh interpreter ([sys.getrecursionlimit()]). *)
Definition default_recursion_limit : nat := 1000.

(** The reference codec as an instance, for evaluation at concrete inputs:
    an interpreter with the default limits, on values nested less deeply
    than the room the stack leaves. *)
#[export] Instance py_json : JsonCodec := {|
  json_loads := Json.loads default_recursion_limit;
  json_dumps := λ v, Returns (Json.dumps v);
  py_repr := λ _, Returns ();
|}.

(** ** The upstream stream normalizer: [openai_provider.py] *)

Module Provider.

(** *** Raw provider frames (the attributes of an SDK chunk that [stream]
    reads) *)

(** [chunk.usage] *)
Record CompletionUsage := {
  prompt_tokens : Z;
  completion_tokens : Z;
  total_tokens : Z;
}.

(** [tool_call.function] *)
Record ChoiceDeltaToolCallFunction := {
  fn_name : option string;
  fn_arguments : option string;
}.

(** One element of [delta.tool_calls]. *)
Record ChoiceDeltaToolCall := {
  tc_index : Z;
  tc_id : option string;
  tc_function : option ChoiceDeltaToolCallFunction;
}.

(** [choice.delta]; a [tool_calls] attribute that is [None] is the empty
    list, both are falsy at line 124. *)
Record ChoiceDelta := {
  content : option string;
  tool_calls : list ChoiceDeltaToolCall;
}.

Record Choice := {
  delta : ChoiceDelta;
  finish_reason : option string;
}.

Record Chunk := {
  choices : list Choice;
  system_fingerprint : option string;
  usage : option CompletionUsage;
}.

(** *** Events yielded by [stream]: [LLMResponse] by its [type] field *)

(** [function.arguments] of a finished call: [json.dumps(args)] when [args]
    is a [dict], the decoded value [args] itself otherwise (line 163). *)
Inductive Arguments :=
| ArgsJson (s : string)
| ArgsValue (v : Json.value).

(** One element of the [tool_calls] list of a ["tool_call"] event. *)
Record ToolCall := {
  call_id : string;
  call_name : string;
  call_arguments : Arguments;
}.

Inductive LLMResponse :=
| TextDelta (text : string)
| ToolCalls (calls : list ToolCall)
| Done (reason : string) (u : option CompletionUsage)
| Metadata (fingerprint : string)
| Usage (u : CompletionUsage)
| Error (message : string).

(** *** Reassembly state: [tool_calls_buffer] *)

Record Accumulator := {
  acc_id : string;
  acc_name : string;
  acc_arguments : string;
}.

(** A Python [dict] keyed by the tool-call index, in insertion order. *)
Definition Buffer := list (Z * Accumulator).

Fixpoint buf_get (idx : Z) (b : Buffer) : option Accumulator :=
  match b with
  | [] => None
  | (k, a) :: b' => if decide (idx = k) then Some a else buf_get idx b'
  end.

(** [idx in tool_calls_buffer] *)
Definition buf_mem (idx : Z) (b : Buffer) : bool :=
  match buf_get idx b with Some _ => true | None => false end.

(** [tool_calls_buffer[idx][field] = ...]: update of an entry in place. *)
Fixpoint buf_alter (f : Accumulator → Accumulator) (idx : Z) (b : Buffer)
  : Buffer :=
  match b with
  | [] => []
  | (k, a) :: b' =>
      if decide (idx = k) then (k, f a) :: b' else (k, a) :: buf_alter f idx b'
  end.

(** [tool_calls_buffer.values()] *)
Definition buf_values (b : Buffer) : list Accumulator := b.*2.

Definition buf_keys (b : Buffer) : list Z := b.*1.

Definition set_name (n : string) (a : Accumulator) : Accumulator :=
  {| acc_id := acc_id a; acc_name := n; acc_arguments := acc_arguments a |}.

Definition add_arguments (s : string) (a : Accumulator) : Accumulator :=
  {| acc_id := acc_id a; acc_name := acc_name a;
     acc_arguments := acc_arguments a +:+ s |}.

(** Lines 128-134: the entry for a new index. *)
Definition init_entry (tc : ChoiceDeltaToolCall) : Accumulator :=
  {| acc_id := str_or (tc_id tc) ("call_" +:+ pretty (tc_index tc));
     acc_name := "";
     acc_arguments := "" |}.

(** Lines 126-142: the body of [for tool_call in delta.tool_calls]. *)
Definition accumulate (b : Buffer) (tc : ChoiceDeltaToolCall) : Buffer :=
  let idx := tc_index tc in
  let b1 := if buf_mem idx b then b else Json.dict_set idx (init_entry tc) b in
  let b2 :=
    match tc_function tc with
    | Some f =>
        if truthy (fn_name f)
        then buf_alter (set_name (default "" (fn_name f))) idx b1
        else b1
    | None => b1
    end in
  match tc_function tc with
  | Some f =>
      if truthy (fn_arguments f)
      then buf_alter (add_arguments (default "" (fn_arguments f))) idx b2
      else b2
  | None => b2
  end.

Section Stream.
Context `{JsonCodec}.

(** Lines 152-155: decode the reassembled arguments.  [JSONDecodeError] is
    caught and gives the empty object; any other exception of [json.loads]
    is not caught here. *)
Definition decode_arguments (s : string) : Outcome Json.value :=
  match s with
  | EmptyString => Returns (Json.Obj [])
  | _ => match json_loads s with
         | Json.Found v => Returns v
         | Json.Malformed => Returns (Json.Obj [])
         | Json.Refused e => Raises e
         end
  end.

(** Line 163 *)
Definition render_arguments (args : Json.value) : Outcome Arguments :=
  if Json.is_dict args then ArgsJson <$> json_dumps args
  else Returns (ArgsValue args).

(** Lines 152-166: the body of [for tc in tool_calls_buffer.values()]. *)
Definition complete (tc : Accumulator) : Outcome ToolCall :=
  args ← decode_arguments (acc_arguments tc);
  arguments ← render_arguments args;
  Returns {| call_id := acc_id tc;
             call_name := acc_name tc;
             call_arguments := arguments |}.

(** Lines 150-166: the loop over the entries, which stops at the first
    entry that raises. *)
Fixpoint complete_all (tcs : list Accumulator) : Outcome (list ToolCall) :=
  match tcs with
  | [] => Returns []
  | tc :: tcs' =>
      call ← complete tc;
      calls ← complete_all tcs';
      Returns (call :: calls)
  end.

(** Line 168: the f-string formats the list of calls; of what it formats,
    only the [repr] of arguments that are not a text can raise. *)
Fixpoint log_calls (calls : list ToolCall) : Outcome unit :=
  match calls with
  | [] => Returns ()
  | call :: calls' =>
      _ ← match call_arguments call with
          | ArgsValue v => py_repr v
          | ArgsJson _ => Returns ()
          end;
      log_calls calls'
  end.

(** Lines 150-168: the calls the ["tool_call"] event will list. *)
Definition flush (b : Buffer) : Outcome (list ToolCall) :=
  calls ← complete_all (buf_values b);
  _ ← log_calls calls;
  Returns calls.

(** Lines 118-121 *)
Definition text_events (d : ChoiceDelta) : list LLMResponse :=
  match content d with
  | Some c => [TextDelta c]
  | None => []
  end.

(** Lines 145-176 *)
Definition finish_events (b : Buffer) (c : Choice) (k : Chunk)
  : Outcome (list LLMResponse) :=
  if truthy (finish_reason c) then
    tool_call_events ←
      match b with
      | [] => Returns []
      | _ => calls ← flush b; Returns [ToolCalls calls]
      end;
    Returns (tool_call_events
               ++ [Done (default "" (finish_reason c)) (usage k)])
  else Returns [].

(** Lines 179-180 *)
Definition metadata_events (k : Chunk) : list LLMResponse :=
  if truthy (system_fingerprint k)
  then [Metadata (default "" (system_fingerprint k))]
  else [].

(** Lines 182-189 *)
Definition usage_events (k : Chunk) : list LLMResponse :=
  match usage k with
  | Some u =>
      [Usage {| prompt_tokens := prompt_tokens u;
                completion_tokens := completion_tokens u;
                total_tokens := total_tokens u |}]
  | None => []
  end.

(** The state of the generator after some chunks: the events yielded, the
    buffer, and the text of the exception raised inside the loop, if one
    was. *)
Record Trace := {
  yielded : list LLMResponse;
  buffer : Buffer;
  raised : option string;
}.

(** Lines 111-189: one iteration of [async for chunk in stream], from the
    buffer before the chunk.  When the flush raises, the text event of the
    chunk has been yielded already and nothing else of the chunk is. *)
Definition step (b : Buffer) (k : Chunk) : Trace :=
  match choices k with
  | [] => {| yielded := []; buffer := b; raised := None |}
  | choice :: _ =>
      let b' := foldl accumulate b (tool_calls (delta choice)) in
      match finish_events b' choice k with
      | Returns evs =>
          {| yielded := text_events (delta choice) ++ evs
                          ++ metadata_events k ++ usage_events k;
             buffer := b';
             raised := None |}
      | Raises e =>
          {| yielded := text_events (delta choice);
             buffer := b';
             raised := Some e |}
      end
  end.

(** The loop over the chunks the upstream delivers: an exception ends
    it, the chunks after it are not read. *)
Fixpoint run (b : Buffer) (ks : list Chunk) : Trace :=
  match ks with
  | [] => {| yielded := []; buffer := b; raised := None |}
  | k :: ks' =>
      let t := step b k in
      match raised t with
      | Some e => t
      | None =>
          let t' := run (buffer t) ks' in
          {| yielded := yielded t ++ yielded t';
             buffer := buffer t';
             raised := raised t' |}
      end
  end.

(** [stream]: the upstream has the chunks [ks] to deliver and then either
    ends ([failure = None]) or raises an exception whose text is [msg]
    ([failure = Some msg]).  Lines 191-193 turn an exception, raised by the
    upstream or inside the loop, into one ["error"] event.  The buffer
    starts empty (line 108). *)
Definition stream (ks : list Chunk) (failure : option string)
  : list LLMResponse :=
  let t := run [] ks in
  yielded t ++
  match raised t with
  | Some e => [Error e]
  | None =>
      match failure with
      | Some msg => [Error msg]
      | None => []
      end
  end.

(** The chunks the loop reads: all of them, or those up to the chunk on
    which an exception is raised. *)
Fixpoint consumed (b : Buffer) (ks : list Chunk) : list Chunk :=
  match ks with
  | [] => []
  | k :: ks' =>
      k :: match raised (step b k) with
           | Some _ => []
           | None => consumed (buffer (step b k)) ks'
           end
  end.

End Stream.

(** *** Vocabulary of the statements about [stream] *)

Definition is_tool_calls (ev : LLMResponse) : bool :=
  match ev with ToolCalls _ => true | _ => false end.

Definition is_done (ev : LLMResponse) : bool :=
  match ev with Done _ _ => true | _ => false end.

Definition is_error (ev : LLMResponse) : bool :=
  match ev with Error _ => true | _ => false end.

Definition is_metadata (ev : LLMResponse) : bool :=
  match ev with Metadata _ => true | _ => false end.

Definition is_usage (ev : LLMResponse) : bool :=
  match ev with Usage _ => true | _ => false end.

(** The arguments of a completed call are a JSON object: the text that
    [json.dumps] gave for a [dict], or a decoded value that is a [dict]. *)
Definition is_json_object (a : Arguments) : bool :=
  match a with
  | ArgsJson _ => true
  | ArgsValue v => Json.is_dict v
  end.

(** The chunk carries no finish reason: its first choice, if any, has a
    falsy [finish_reason]. *)
Definition no_finish (k : Chunk) : bool :=
  match choices k with
  | c :: _ => negb (truthy (finish_reason c))
  | [] => true
  end.

(** A chunk with one choice that carries only tool-call deltas and,
    possibly, a finish reason. *)
Definition tool_chunk (tcs : list ChoiceDeltaToolCall) (fin : option string)
  : Chunk :=
  {| choices := [ {| delta := {| content := None; tool_calls := tcs |};
                     finish_reason := fin |} ];
     system_fingerprint := None;
     usage := None |}.

(** The arguments fragment a delta carries, empty when it carries none. *)
Definition fragment_of (tc : ChoiceDeltaToolCall) : string :=
  match tc_function tc with
  | Some f => default "" (fn_arguments f)
  | None => ""
  end.

(** The concatenation of the fragments of a sequence of deltas. *)
Definition concat_fragments (tcs : list ChoiceDeltaToolCall) : string :=
  foldr (λ tc s, fragment_of tc +:+ s) "" tcs.

(** The last non-empty function name among a sequence of deltas, [n] when
    there is none. *)
Definition last_name (n : string) (tcs : list ChoiceDeltaToolCall) : string :=
  foldl (λ n tc, match tc_function tc with
                 | Some f => str_or (fn_name f) n
                 | None => n
                 end) n tcs.

(** The accumulator [a] after the deltas [tcs], all for its index. *)
Definition reassemble (a : Accumulator) (tcs : list ChoiceDeltaToolCall)
  : Accumulator :=
  {| acc_id := acc_id a;
     acc_name := last_name (acc_name a) tcs;
     acc_arguments := acc_arguments a +:+ concat_fragments tcs |}.

(** The tool-call deltas a chunk contributes to the buffer. *)
Definition deltas_of (k : Chunk) : list ChoiceDeltaToolCall :=
  match choices k with
  | c :: _ => tool_calls (delta c)
  | [] => []
  end.

(** The identifiers that the deltas for index [idx] supply, in order. *)
Definition supplied_ids (idx : Z) (ks : list Chunk) : list string :=
  ks ≫= λ k,
    match choices k with
    | c :: _ =>
        omap (λ tc, if decide (tc_index tc = idx)
                    then (if truthy (tc_id tc) then tc_id tc else None)
                    else None)
             (tool_calls (delta c))
    | [] => []
    end.

(** The identifiers of the completed calls among a sequence of events. *)
Definition emitted_ids (evs : list LLMResponse) : list string :=
  evs ≫= λ ev, match ev with
               | ToolCalls calls => call_id <$> calls
               | _ => []
               end.

(** Position of the first event satisfying [p]. *)
Fixpoint position (p : LLMResponse → bool) (evs : list LLMResponse)
  : option nat :=
  match evs with
  | [] => None
  | ev :: evs' => if p ev then Some O else S <$> position p evs'
  end.

(** The indices are in strictly ascending order. *)
Fixpoint ascending (ks : list Z) : bool :=
  match ks with
  | k1 :: ((k2 :: _) as ks') => bool_decide (k1 < k2) && ascending ks'
  | _ => true
  end.

End Provider.
(** ** Skill matching: [skill_loader.py] *)

Module Skills.

(** A value [yaml.safe_load] puts in the front matter of a skill file, as
    far as the code tells values apart: [None], a [str], or anything else (a
    number, a boolean, a date, a list, a mapping), which has no method
    [lower] and is given by the text [str] makes of it.  Two values of the
    last kind are taken to be equal when their texts are. *)
Inductive Atom :=
| ANone
| AStr (s : string)
| AOther (text : string).

#[export] Instance Atom_eq_dec : EqDecision Atom.
Proof. solve_decision. Defined.

(** The value under [tags]: [None] (a [tags:] line left blank), a [str], a
    list, a mapping, or a value that cannot be iterated (a number, a
    boolean, a date). *)
Inductive Tags :=
| TagsNone
| TagsStr (s : string)
| TagsList (items : list Atom)
| TagsDict (keys : list Atom)
| TagsScalar (text : string).

#[export] Instance Tags_eq_dec : EqDecision Tags.
Proof. solve_decision. Defined.

(** A skill descriptor as [_parse_skill_file] builds it (lines 53-59):
    [name], [description], [tags] and [version] are whatever the front
    matter holds, [None] for a missing [name] or [description];
    [instructions] is the body of the file, a [str].  The values that only an
    explicit YAML tag produces ([!!binary], [!!set], [!!omap], [!!pairs])
    are left out. *)
Record Skill := {
  name : Atom;
  description : Atom;
  instructions : string;
  tags : Tags;
  version : Atom;
}.

#[export] Instance Skill_eq_dec : EqDecision Skill.
Proof. solve_decision. Defined.

(** [p in s] on strings *)
Fixpoint contains (s p : string) : bool :=
  String.prefix p s ||
  match s with
  | String _ s' => contains s' p
  | EmptyString => false
  end.

(** [str.lower] on characters A to Z; every other character is kept. *)
Definition lower_ascii (c : ascii) : ascii :=
  let n := N_of_ascii c in
  if ((65 <=? n) && (n <=? 90))%N then ascii_of_N (n + 32) else c.

Fixpoint ascii_lower (s : string) : string :=
  match s with
  | EmptyString => EmptyString
  | String c s' => String (lower_ascii c) (ascii_lower s')
  end.

(** The characters of a [str], each a [str] of length one: what iterating
    over it yields. *)
Fixpoint characters (s : string) : list string :=
  match s with
  | EmptyString => []
  | String c s' => String c EmptyString :: characters s'
  end.

(** [for tag in tags]: the items the iteration yields; [None] when the
    value cannot be iterated ([TypeError]).  A mapping yields its keys, a
    [str] its characters. *)
Definition iterate (t : Tags) : option (list Atom) :=
  match t with
  | TagsNone => None
  | TagsStr s => Some (AStr <$> characters s)
  | TagsList items => Some items
  | TagsDict keys => Some keys
  | TagsScalar _ => None
  end.

Section FindSkills.
(** [str.lower] *)
Variable lower : string → string.

(** [x.lower()]; [None] when [x] is not a [str] ([AttributeError]). *)
Definition lower_of (x : Atom) : option string :=
  match x with
  | AStr s => Some (lower s)
  | _ => None
  end.

(** Lines 67-68: [items_to_check]; [None] when building the list raises. *)
Definition items_to_check (skill : Skill) : option (list string) :=
  n ← lower_of (name skill);
  d ← lower_of (description skill);
  items ← iterate (tags skill);
  ts ← mapM lower_of items;
  Some ([n; d] ++ ts).

(** Line 70 *)
Definition any_in (items : list string) (query_lower : string) : bool :=
  existsb (λ item, contains query_lower item) items.

(** Lines 65-71: the loop over [self.skills.values()], from the skills still
    to visit and the list [matched] so far. *)
Fixpoint find_loop (query_lower : string) (skills matched : list Skill)
  : option (list Skill) :=
  match skills with
  | [] => Some matched
  | skill :: rest =>
      items ← items_to_check skill;
      find_loop query_lower rest
        (if any_in items query_lower then matched ++ [skill] else matched)
  end.

(** [SkillProvider.find_skills]; [skills] is [self.skills.values()].
    [None] when it raises. *)
Definition find_skills (skills : list Skill) (query : string)
  : option (list Skill) :=
  find_loop (lower query) skills [].

(** *** Vocabulary of the statements about [find_skills] *)

(** [p] occurs in [s]. *)
Definition occurs_in (p s : string) : Prop :=
  ∃ pre post, s = pre +:+ p +:+ post.

(** The text of a value that is a [str]. *)
Definition text_of (x : Atom) : option string :=
  match x with
  | AStr s => Some s
  | _ => None
  end.

(** The texts of the name, of the description and of the tags of a skill:
    those of them that are a [str]. *)
Definition fields (skill : Skill) : list string :=
  option_list (text_of (name skill))
  ++ option_list (text_of (description skill))
  ++ omap text_of (default [] (iterate (tags skill))).

(** Some field of the skill, lower-cased, occurs in the lower-cased query. *)
Definition related (query : string) (skill : Skill) : Prop :=
  ∃ item, item ∈ fields skill ∧ occurs_in (lower item) (lower query).

(** [related], decided. *)
Definition relatedb (query : string) (skill : Skill) : bool :=
  existsb (λ item, contains (lower query) (lower item)) (fields skill).

(** The descriptor is complete: its name and its description are a [str],
    and its tags can be iterated and are each a [str]. *)
Definition well_formed (skill : Skill) : Prop :=
  is_Some (text_of (name skill))
  ∧ is_Some (text_of (description skill))
  ∧ ∃ items, iterate (tags skill) = Some items
             ∧ Forall (λ x, is_Some (text_of x)) items.

End FindSkills.

End Skills.

(** ** The OpenAI-compatible endpoint: [openai_compat.py]

    Lines 209-239 (ingestion) and 258-394 (the streaming encoder) of
    [chat_completions], as they are written.  As the file stands, the
    malformed non-streaming branch (lines 398-448) makes the import of the
    module fail, so that these lines do not run until that branch is
    mended; the definitions below say what they do when they run. *)

Module Compat.

Record ChatMessage := {
  role : string;
  content : option string;
  tool_calls : option (list Json.value);
  name : option string;
}.

Record ChatCompletionRequest := {
  model : string;
  messages : list ChatMessage;
  stream : bool;
  max_tokens : option Z;
  user : option string;
}.

Record ChatCompletionUsage := {
  prompt_tokens : Z;
  completion_tokens : Z;
  total_tokens : Z;
}.

(** *** The session store *)

(** Modelled from the spec: [clawdbot/agents/session.py] is absent; the spec
    describes a session store keyed by an opaque session identifier
    providing [clear()], [add_system_message], [add_user_message] and
    [add_assistant_message].  A session is the list of its messages, each a
    role and a content; [clear] empties it and the [add_] methods append. *)
Record Message := {
  msg_role : string;
  msg_content : option string;
}.

Record Session := {
  history : list Message;
}.

#[export] Instance Message_eq_dec : EqDecision Message.
Proof. solve_decision. Defined.

#[export] Instance Session_eq_dec : EqDecision Session.
Proof. solve_decision. Defined.

Definition clear (s : Session) : Session := {| history := [] |}.

Definition add_message (r : string) (c : option string) (s : Session)
  : Session :=
  {| history := history s ++ [ {| msg_role := r; msg_content := c |} ] |}.

Definition add_system_message := add_message "system".
Definition add_user_message := add_message "user".
Definition add_assistant_message := add_message "assistant".

(** Modelled from the spec: [SessionManager.get_session] returns the session
    stored under the identifier, a new empty one when there is none. *)
Definition get_session (mgr : gmap string Session) (sid : string) : Session :=
  default {| history := [] |} (mgr !! sid).

(** *** Lines 209-239: ingestion of a request into its session *)

Section Ingest.
(** [get_prompt_manager().get_full_system_prompt], from the query to the
    assembled prompt; [None] when it raises, as it does when [find_skills]
    meets an incomplete skill descriptor. *)
Variable get_full_system_prompt : string → option string.
(** [uuid.uuid4().hex[:8]] of this request. *)
Variable fresh : string.

(** Line 210 *)
Definition request_session_id (request : ChatCompletionRequest) : string :=
  str_or (user request) ("openai-compat-" +:+ fresh).

(** Line 217 *)
Definition has_system_msg (request : ChatCompletionRequest) : bool :=
  existsb (λ msg, bool_decide (role msg = "system")) (messages request).

(** Lines 221-225: the content of the latest user message with a non-empty
    content, the empty string when there is none. *)
Definition user_query (request : ChatCompletionRequest) : string :=
  match
    filter (λ msg, role msg = "user" ∧ truthy (content msg) = true)
           (reverse (messages request))
  with
  | msg :: _ => default "" (content msg)
  | [] => ""
  end.

(** Lines 234-239: the body of [for msg in request.messages]. *)
Definition ingest_message (session : Session) (msg : ChatMessage) : Session :=
  if bool_decide (role msg = "system")
  then add_system_message (content msg) session
  else if bool_decide (role msg = "user")
  then add_user_message (content msg) session
  else if bool_decide (role msg = "assistant")
  then add_assistant_message (content msg) session
  else session.

(** Lines 210-239: the session handed to [run_turn], and the store holding
    it.  When line 229 raises, the exception leaves [chat_completions]: no
    session is handed on ([None]), and the store holds the session as line
    214 cleared it. *)
Definition ingest (mgr : gmap string Session) (request : ChatCompletionRequest)
  : option Session * gmap string Session :=
  let sid := request_session_id request in
  let session := clear (get_session mgr sid) in
  let prompted :=
    if has_system_msg request then Some session
    else
      full_system_prompt ← get_full_system_prompt (user_query request);
      Some (add_system_message (Some full_system_prompt) session) in
  match prompted with
  | Some session =>
      let session := foldl ingest_message session (messages request) in
      (Some session, <[sid := session]> mgr)
  | None => (None, <[sid := session]> mgr)
  end.

(** *** Vocabulary of the statements about [ingest] *)




End Ingest.

(** *** Lines 258-394: the streaming wire encoder [stream_response] *)

(** An element of [delta.tool_calls] as line 351 builds it. *)
Record ToolCallDelta := {
  tcd_index : Z;
  tcd_id : option string;
  tcd_type : string;
  tcd_function_name : option string;
  tcd_function_output : option string;
}.

Record ChatCompletionChunkDelta := {
  delta_role : option string;
  delta_content : option string;
  delta_tool_calls : option (list ToolCallDelta);
}.

Record ChatCompletionChunkChoice := {
  choice_index : Z;
  choice_delta : ChatCompletionChunkDelta;
  choice_finish_reason : option string;
}.

Record ChatCompletionChunk := {
  chunk_id : string;
  chunk_created : Z;
  chunk_model : string;
  chunk_choices : list ChatCompletionChunkChoice;
  chunk_usage : option ChatCompletionUsage;
  chunk_system_fingerprint : option string;
}.

(** What [runtime.run_turn] yields, by [event.type]; the payload is what
    [stream_response] reads of [event.data].  [Assistant None] is an
    ["assistant"] event whose delta has no ["text"] key. *)
Inductive Event :=
| Assistant (text : option string)
| MetadataEvent (system_fingerprint : option string)
| UsageEvent (u : ChatCompletionUsage)
| ToolUse (tool : option string) (input : option Json.value)
| ToolResult (id tool result : option string)
| OtherEvent (type : string).

(** What the generator yields: a [data:] line with a chunk, the [data: [DONE]]
    line, or the [data:] line with the error dictionary of line 394. *)
Inductive Frame :=
| Data (c : ChatCompletionChunk)
| DoneSentinel
| ErrorFrame (message : string).

Section StreamResponse.
Variable completion_id : string.
Variable created : Z.
Variable request : ChatCompletionRequest.

(** [ChatCompletionChunkDelta()] with every field at its default. *)
Definition empty_delta : ChatCompletionChunkDelta :=
  {| delta_role := None; delta_content := None; delta_tool_calls := None |}.

Definition make_chunk (d : ChatCompletionChunkDelta) (fin : option string)
  (u : option ChatCompletionUsage) (fp : option string) : ChatCompletionChunk :=
  {| chunk_id := completion_id;
     chunk_created := created;
     chunk_model := model request;
     chunk_choices := [ {| choice_index := 0; choice_delta := d;
                           choice_finish_reason := fin |} ];
     chunk_usage := u;
     chunk_system_fingerprint := fp |}.

(** Lines 263-272 *)
Definition initial_chunk : ChatCompletionChunk :=
  make_chunk {| delta_role := Some "assistant"; delta_content := None;
                delta_tool_calls := None |} None None None.

(** Lines 370-381 *)
Definition final_chunk (total_usage : option ChatCompletionUsage)
  (system_fingerprint : option string) : ChatCompletionChunk :=
  make_chunk empty_delta (Some "stop") total_usage system_fingerprint.

(** Lines 280-389: the loop over the events and what follows it, from the
    current [total_usage] and [system_fingerprint].  The events are followed
    by the end of the turn or by an exception raised by [run_turn]
    ([failure]).  Line 322 calls [json.dumps], and the module does not
    import [json]: a ["tool_use"] event raises [NameError], which line 391
    catches like any other exception. *)
Fixpoint encode (total_usage : option ChatCompletionUsage)
  (system_fingerprint : option string) (events : list Event)
  (failure : option string) : list Frame :=
  match events with
  | [] =>
      match failure with
      | Some e => [ErrorFrame e]
      | None => [Data (final_chunk total_usage system_fingerprint); DoneSentinel]
      end
  | Assistant (Some text) :: rest =>
      Data (make_chunk {| delta_role := None; delta_content := Some text;
                          delta_tool_calls := None |}
              None None system_fingerprint)
        :: encode total_usage system_fingerprint rest failure
  | Assistant None :: rest =>
      encode total_usage system_fingerprint rest failure
  | MetadataEvent fp :: rest => encode total_usage fp rest failure
  | UsageEvent u :: rest => encode (Some u) system_fingerprint rest failure
  | ToolUse _ _ :: _ => [ErrorFrame "name 'json' is not defined"]
  | ToolResult id tool result :: rest =>
      Data (make_chunk
              {| delta_role := None; delta_content := None;
                 delta_tool_calls :=
                   Some [ {| tcd_index := 0; tcd_id := id;
                             tcd_type := "function";
                             tcd_function_name := tool;
                             tcd_function_output := result |} ] |}
              None None system_fingerprint)
        :: encode total_usage system_fingerprint rest failure
  | OtherEvent _ :: rest => encode total_usage system_fingerprint rest failure
  end.

(** [stream_response] *)
Definition stream_response (events : list Event) (failure : option string)
  : list Frame :=
  Data initial_chunk :: encode None None events failure.

End StreamResponse.

(** *** Vocabulary of the statements about [stream_response] *)

(** The chunks of the [data:] lines, in order. *)
Definition data_chunks (frames : list Frame) : list ChatCompletionChunk :=
  omap (λ f, match f with Data c => Some c | _ => None end) frames.


Definition finish_reason_of (c : ChatCompletionChunk) : option string :=
  head (chunk_choices c) ≫= choice_finish_reason.

End Compat.
(** ** Concrete streams *)

Module Scenarios.
Import Provider.

(** A tool-call delta with a function part. *)
Definition fn_delta (idx : Z) (id name args : option string)
  : ChoiceDeltaToolCall :=
  {| tc_index := idx; tc_id := id;
     tc_function := Some {| fn_name := name; fn_arguments := args |} |}.

(** The arguments of one call to [get_weather] split inside a key, the
    finish reason arriving with the second fragment. *)
Definition weather_first : ChoiceDeltaToolCall :=
  fn_delta 0 None (Some "get_weather") (Some ("{" +:+ String DQ "ci")).

Definition weather_second : ChoiceDeltaToolCall :=
  fn_delta 0 None None (Some ("ty" +:+ String DQ ":" +:+ quoted "SF" +:+ "}")).

Definition weather_chunks : list Chunk :=
  [tool_chunk [weather_first] None;
   tool_chunk [weather_second] (Some "tool_calls")].

(** The call of the weather chunks, as it is completed. *)
Definition weather_call : ToolCall :=
  {| call_id := "call_0"; call_name := "get_weather";
     call_arguments :=
       ArgsJson ("{" +:+ quoted "city" +:+ ": " +:+ quoted "SF" +:+ "}") |}.

(** Text and a fingerprint, no finish reason. *)
Definition text_chunk (text : string) : Chunk :=
  {| choices := [ {| delta := {| content := Some text; tool_calls := [] |};
                     finish_reason := None |} ];
     system_fingerprint := Some "fp_44709d6fcb";
     usage := None |}.

Definition text_chunks : list Chunk :=
  [text_chunk "Hel"; tool_chunk [weather_first] None; text_chunk "lo"].

(** The identifier of call 0 arrives on its second delta. *)
Definition late_id_chunks : list Chunk :=
  [tool_chunk [fn_delta 0 None (Some "get_weather") (Some "{")] None;
   tool_chunk [fn_delta 0 (Some "call_abc") None (Some "}")]
     (Some "tool_calls")].

(** Call 1 is announced before call 0. *)
Definition out_of_order_chunks : list Chunk :=
  [tool_chunk [fn_delta 1 (Some "call_b") (Some "g") (Some "{}")] None;
   tool_chunk [fn_delta 0 (Some "call_a") (Some "f") (Some "{}")] None;
   tool_chunk [] (Some "tool_calls")].

Definition out_of_order_buffer : Buffer :=
  [(1, {| acc_id := "call_b"; acc_name := "g"; acc_arguments := "{}" |});
   (0, {| acc_id := "call_a"; acc_name := "f"; acc_arguments := "{}" |})].

(** The two calls of the out-of-order chunks, as they are completed. *)
Definition out_of_order_calls : list ToolCall :=
  [ {| call_id := "call_b"; call_name := "g";
       call_arguments := ArgsJson "{}" |};
    {| call_id := "call_a"; call_name := "f";
       call_arguments := ArgsJson "{}" |} ].

Definition sample_usage : CompletionUsage :=
  {| prompt_tokens := 10; completion_tokens := 5; total_tokens := 15 |}.

(** The finish reason, a fingerprint and the usage on one chunk. *)
Definition finish_with_usage_chunk : Chunk :=
  {| choices := [ {| delta := {| content := None; tool_calls := [] |};
                     finish_reason := Some "stop" |} ];
     system_fingerprint := Some "fp_44709d6fcb";
     usage := Some sample_usage |}.

(** The usage on a chunk without choices, as the upstream sends it when
    [stream_options] asks for usage. *)
Definition usage_only_chunk : Chunk :=
  {| choices := []; system_fingerprint := None; usage := Some sample_usage |}.

(** A call whose reassembled arguments are a JSON array. *)
Definition array_arguments_chunks : list Chunk :=
  [tool_chunk [fn_delta 0 (Some "call_a") (Some "f") (Some "[1]")]
     (Some "tool_calls")].

(** An integer literal of 4301 digits: valid JSON, one digit more than
    [int] converts. *)
Definition long_integer : string :=
  string_of_list_ascii (replicate 4301 "7"%char).

(** The same literal in two fragments, then the finish reason on a third
    chunk that carries a text as well. *)
Definition long_integer_chunks : list Chunk :=
  [tool_chunk [fn_delta 0 (Some "call_a") (Some "f")
                 (Some (string_of_list_ascii (replicate 4000 "7"%char)))] None;
   tool_chunk [fn_delta 0 None None
                 (Some (string_of_list_ascii (replicate 301 "7"%char)))] None;
   {| choices := [ {| delta := {| content := Some "ok"; tool_calls := [] |};
                      finish_reason := Some "tool_calls" |} ];
      system_fingerprint := Some "fp_44709d6fcb";
      usage := Some sample_usage |}].

(** An object that is never closed. *)
Definition truncated : Accumulator :=
  {| acc_id := "call_0"; acc_name := "get_weather";
     acc_arguments := "{" +:+ quoted "city" +:+ ": " +:+ quoted "SF" |}.

End Scenarios.

Module SkillScenarios.
Import Skills.

Definition cleanup_skill : Skill :=
  {| name := AStr "Desktop-Cleanup";
     description := AStr "free disk space on the desktop";
     instructions := "List the largest files first.";
     tags := TagsList [AStr "clean"; AStr "disk"];
     version := AStr "1.0.0" |}.

Definition weather_skill : Skill :=
  {| name := AStr "weather";
     description := AStr "look up the forecast";
     instructions := "Ask for the city.";
     tags := TagsList [AStr "forecast"];
     version := AStr "1.0.0" |}.

Definition catalog : list Skill := [cleanup_skill; weather_skill].

(** A skill file whose front matter has no [description]. *)
Definition draft_skill : Skill :=
  {| name := AStr "draft";
     description := ANone;
     instructions := "";
     tags := TagsList [];
     version := AStr "1.0.0" |}.

(** A skill file whose [tags:] line is left blank. *)
Definition untagged_skill : Skill :=
  {| name := AStr "notes";
     description := AStr "keep notes";
     instructions := "Keep notes short.";
     tags := TagsNone;
     version := AStr "1.0.0" |}.

(** The catalog with an incomplete descriptor after the complete ones. *)
Definition catalog_with_draft : list Skill := catalog ++ [draft_skill].

End SkillScenarios.

Module CompatScenarios.
Import Compat.

Definition plain (r : string) (c : string) : ChatMessage :=
  {| role := r; content := Some c; tool_calls := None; name := None |}.

(** A conversation that already holds the result of a tool. *)
Definition tool_request : ChatCompletionRequest :=
  {| model := "gpt-4o";
     messages := [plain "system" "Be brief."; plain "user" "What is 2+2?";
                  plain "tool" "4"];
     stream := true;
     max_tokens := None;
     user := Some "alice" |}.

Definition hello_request : ChatCompletionRequest :=
  {| model := "gpt-4o";
     messages := [plain "user" "Say hello, please."];
     stream := true;
     max_tokens := None;
     user := None |}.

(** A store in which the session of [alice] has a history. *)
Definition stale_store : gmap string Session :=
  {[ "alice" := {| history := [ {| msg_role := "user";
                                   msg_content := Some "old question" |} ] |} ]}.

End CompatScenarios.
(** ** Further vocabulary for the normalizer *)

Module StreamVocabulary.
Import Provider.

(** [chunk.choices] is not empty (line 111). *)
Definition has_choices (k : Chunk) : bool :=
  match choices k with
  | [] => false
  | _ :: _ => true
  end.

(** The texts of the text events, in order. *)
Definition texts (evs : list LLMResponse) : list string :=
  omap (λ ev, match ev with TextDelta t => Some t | _ => None end) evs.

(** The contents the chunks carry on their first choice, in order; a
    content that is [None] is left out, an empty one is kept. *)
Definition contents (ks : list Chunk) : list string :=
  omap (λ k, head (choices k) ≫= λ c, content (delta c)) ks.

(** The deltas for index [idx] among [tcs], in order. *)
Definition for_index (idx : Z) (tcs : list ChoiceDeltaToolCall)
  : list ChoiceDeltaToolCall :=
  filter (λ tc, tc_index tc = idx) tcs.

(** The distinct elements of a list, each at the place of its first
    occurrence. *)
Fixpoint first_appearance (l : list Z) : list Z :=
  match l with
  | [] => []
  | i :: l' => i :: filter (λ j, j ≠ i) (first_appearance l')
  end.

(** The calls listed by the tool-call events, in order. *)
Definition listed_calls (evs : list LLMResponse) : list (list ToolCall) :=
  omap (λ ev, match ev with ToolCalls calls => Some calls | _ => None end) evs.

(** A delta that supplies no identifier. *)
Definition anonymous (idx : Z) : ChoiceDeltaToolCall :=
  {| tc_index := idx; tc_id := None; tc_function := None |}.

End StreamVocabulary.

(** ** Further vocabulary for the endpoint *)

Module EncoderVocabulary.
Import Compat.

Definition is_tool_use (ev : Event) : bool :=
  match ev with ToolUse _ _ => true | _ => false end.

(** The texts of the assistant events that have one, in order. *)
Definition texts_of (events : list Event) : list string :=
  omap (λ ev, match ev with Assistant (Some t) => Some t | _ => None end)
       events.

(** [delta.content] of the first choice of a chunk. *)
Definition content_of (c : ChatCompletionChunk) : option string :=
  head (chunk_choices c) ≫= λ ch, delta_content (choice_delta ch).

(** The contents of the chunks of the [data:] lines, in order. *)
Definition contents_of (frames : list Frame) : list string :=
  omap content_of (data_chunks frames).


(** A chunk of the body of a stream: no finish reason and no usage. *)
Definition is_body_chunk (c : ChatCompletionChunk) : Prop :=
  finish_reason_of c = None ∧ chunk_usage c = None.

(** The message can serve as the skill-matching query (line 223). *)
Definition is_query_message (msg : ChatMessage) : bool :=
  bool_decide (role msg = "user") && truthy (content msg).

End EncoderVocabulary.

(** ** Prompt assembly: [skill_loader.py], [prompt_manager.py] and
    [read_skill.py] *)

Module Prompt.
Import Skills.

(** The line feed. *)
Definition nl : string := String (ascii_of_N 10) "".

(** A value inside an f-string: [str] of it. *)
Definition fmt (x : Atom) : string :=
  match x with
  | ANone => "None"
  | AStr s => s
  | AOther text => text
  end.

(** [', '.join(names)]; [None] when an item is not a [str] ([TypeError]). *)
Definition join_names (names : list Atom) : option string :=
  Json.join ", " <$> mapM text_of names.

(** Lines 87-89 of [skill_loader.py]: what the loop adds for one matched
    skill. *)
Definition skill_block (skill : Skill) : string :=
  "#### Skill: " +:+ fmt (name skill) +:+ nl
  +:+ "Description: " +:+ fmt (description skill) +:+ nl
  +:+ "Instructions:" +:+ nl +:+ instructions skill +:+ nl +:+ nl.

(** [SkillProvider.get_system_prompt_segment]; [skills] is
    [self.skills.values()], whose names are the keys of [self.skills].
    [None] when joining the names raises. *)
Definition get_system_prompt_segment (skills : list Skill)
  (matched_skills : option (list Skill)) : option string :=
  match skills with
  | [] => Some "No specialized skills loaded."
  | _ :: _ =>
      let segment := nl +:+ "### SPECIALIZED SKILLS" +:+ nl in
      match matched_skills with
      | Some ((_ :: _) as matched) =>
          let segment :=
            segment +:+ "The following relevant skills have been dynamically loaded based on your request:"
                    +:+ nl +:+ nl in
          let segment :=
            foldl (λ seg skill, seg +:+ skill_block skill) segment matched in
          let other_names :=
            name <$> filter (λ s, name s ∉ (name <$> matched)) skills in
          match other_names with
          | [] => Some segment
          | _ :: _ =>
              names ← join_names other_names;
              Some (segment +:+ "Other available skills: " +:+ names
                            +:+ ". (Use 'read_skill' to see details if needed)"
                            +:+ nl)
          end
      | _ =>
          names ← join_names (name <$> skills);
          Some (segment
                  +:+ "Use 'read_skill' to see details for any of the following available skills:"
                  +:+ nl +:+ "Available: " +:+ names +:+ nl)
      end
  end.

(** [s.replace(old, new)] for a non-empty [old]: the occurrences of [old]
    are replaced from left to right, without overlap.  [skip] counts the
    characters of an occurrence still to pass over. *)
Fixpoint replace_from (skip : nat) (s old new : string) : string :=
  match s with
  | EmptyString => EmptyString
  | String c s' =>
      match skip with
      | S k => replace_from k s' old new
      | O =>
          if String.prefix old s
          then new +:+ replace_from (String.length old - 1) s' old new
          else String c (replace_from O s' old new)
      end
  end.

Definition replace (s old new : string) : string := replace_from O s old new.

(** The placeholder of line 38 of [prompt_manager.py]. *)
Definition placeholder : string := "{{SKILLS_SUMMARY}}".

(** Lines 41-42 of [prompt_manager.py]: what is appended for the soul. *)
Definition personality (soul_prompt : string) : string :=
  match soul_prompt with
  | EmptyString => ""
  | _ => nl +:+ "<personality>" +:+ nl +:+ soul_prompt +:+ nl
         +:+ "</personality>"
  end.

Section PromptManager.
(** [str.lower] *)
Variable lower : string → string.
(** The files of the prompt directory, by name. *)
Variable files : gmap string string.
(** [self.skill_provider.skills.values()] *)
Variable skills : list Skill.

(** [PromptManager._load_file]: the empty string when the file is
    missing. *)
Definition _load_file (filename : string) : string :=
  default "" (files !! filename).

(** [PromptManager.get_full_system_prompt]; [None] when [find_skills] or
    [get_system_prompt_segment] raises. *)
Definition get_full_system_prompt (query : option string) : option string :=
  let base_prompt := _load_file "base.md" in
  let soul_prompt := _load_file "soul.md" in
  matched_skills ←
    (if truthy query
     then Some <$> find_skills lower skills (default "" query)
     else Some None);
  skills_segment ← get_system_prompt_segment skills matched_skills;
  let full_prompt := replace base_prompt placeholder skills_segment in
  Some (full_prompt +:+ personality soul_prompt).

End PromptManager.

(** *** [ReadSkillTool.execute] *)

(** The result of a tool, as [execute] builds it. *)
Record ToolResult := {
  success : bool;
  result_content : string;
  error : option string;
}.

(** [self.skill_provider.skills.get(skill_name)]: the skill stored under
    the key, the keys being the names. *)
Definition skills_get (skills : list Skill) (skill_name : string)
  : option Skill :=
  head (filter (λ s, name s = AStr skill_name) skills).

(** [ReadSkillTool.execute]; [skill_name] is [params.get("skill_name")].
    [None] when joining the keys raises. *)
Definition execute (skills : list Skill) (skill_name : option string)
  : option ToolResult :=
  if truthy skill_name then
    match skills_get skills (default "" skill_name) with
    | Some skill =>
        Some {| success := true;
                result_content :=
                  "# Skill: " +:+ fmt (name skill) +:+ nl +:+ nl
                  +:+ "Description: " +:+ fmt (description skill) +:+ nl
                  +:+ "Instructions:" +:+ nl +:+ instructions skill +:+ nl;
                error := None |}
    | None =>
        available ← join_names (name <$> skills);
        Some {| success := false;
                result_content := "";
                error := Some ("Skill '" +:+ default "" skill_name
                               +:+ "' not found. Available skills: "
                               +:+ available) |}
    end
  else
    Some {| success := false; result_content := "";
            error := Some "skill_name is required" |}.

End Prompt.

(** ** API keys: [auth/api_keys.py] *)

Module ApiKeys.

(** A [datetime] is the number of microseconds since the epoch
    (1970-01-01T00:00:00 UTC). *)
Definition microseconds_per_day : Z := 86400000000.

(** [datetime.min] and [datetime.max]: 0001-01-01T00:00:00 and
    9999-12-31T23:59:59.999999. *)
Definition datetime_min : Z := -719162 * microseconds_per_day.
Definition datetime_max : Z := 2932897 * microseconds_per_day - 1.

(** [timedelta(days=d)], in microseconds; [None] when it raises
    [OverflowError]: the magnitude of the days is at most 999999999. *)
Definition timedelta_days (d : Z) : option Z :=
  if decide (-999999999 ≤ d ≤ 999999999)
  then Some (d * microseconds_per_day)
  else None.

(** [t + delta] on a [datetime]; [None] when it raises [OverflowError]
    because the result is out of the range of [datetime]. *)
Definition datetime_add (t delta : Z) : option Z :=
  if decide (datetime_min ≤ t + delta ≤ datetime_max)
  then Some (t + delta)
  else None.

(** [APIKey] *)
Record APIKey := {
  key_id : string;
  key_hash : string;
  raw_key : option string;
  name : string;
  created_at : Z;
  expires_at : option Z;
  last_used : option Z;
  permissions : gset string;
  rate_limit : option Z;
  enabled : bool;
}.

(** Lines 38-39: the key has an expiry and it is past. *)
Definition expired (now : Z) (k : APIKey) : bool :=
  match expires_at k with
  | Some e => bool_decide (e < now)
  | None => false
  end.

(** [APIKey.is_valid] *)
Definition is_valid (now : Z) (k : APIKey) : bool :=
  if negb (enabled k) then false
  else if expired now k then false
  else true.

(** [APIKey.has_permission] *)
Definition has_permission (k : APIKey) (permission : string) : bool :=
  bool_decide (permission ∈ permissions k).

(** [APIKey.update_last_used] *)
Definition update_last_used (now : Z) (k : APIKey) : APIKey :=
  {| key_id := key_id k; key_hash := key_hash k; raw_key := raw_key k;
     name := name k; created_at := created_at k; expires_at := expires_at k;
     last_used := Some now; permissions := permissions k;
     rate_limit := rate_limit k; enabled := enabled k |}.

(** [self._keys[key_id].enabled = False] *)
Definition disable (k : APIKey) : APIKey :=
  {| key_id := key_id k; key_hash := key_hash k; raw_key := raw_key k;
     name := name k; created_at := created_at k; expires_at := expires_at k;
     last_used := last_used k; permissions := permissions k;
     rate_limit := rate_limit k; enabled := false |}.

(** [d.get(k)] on an insertion-ordered dictionary. *)
Fixpoint dict_get {V} (k : string) (d : list (string * V)) : option V :=
  match d with
  | [] => None
  | (k', v) :: d' => if decide (k = k') then Some v else dict_get k d'
  end.

(** [del d[k]] on an insertion-ordered dictionary that holds [k]. *)
Definition dict_del {V} (k : string) (d : list (string * V))
  : list (string * V) :=
  filter (λ kv, kv.1 ≠ k) d.

(** [APIKeyManager]: [_keys], a dictionary that is iterated, in insertion
    order; [_hash_to_key], a dictionary used as a map. *)
Record Manager := {
  _keys : list (string * APIKey);
  _hash_to_key : gmap string string;
}.

Section Manager.
(** [APIKeyManager._hash_key]: the SHA-256 digest of the key, in
    hexadecimal. *)
Variable _hash_key : string → string.

(** Lines 97-99: the expiry; the outer [None] when line 99 raises
    [OverflowError]. *)
Definition expiry (now : Z) (expires_days : option Z) : option (option Z) :=
  match expires_days with
  | Some d =>
      if bool_decide (d = 0) then Some None
      else
        delta ← timedelta_days d;
        expires_at ← datetime_add now delta;
        Some (Some expires_at)
  | None => Some None
  end.

(** [APIKeyManager.create_key].  [key_id] and [token] are the two random
    strings of lines 92-93, [now] the time of the call.  The returned value
    is the raw key; [None] when line 99 raises, before anything is
    stored. *)
Definition create_key (now : Z) (key_id token : string) (name : string)
  (permissions : option (gset string)) (expires_days : option Z)
  (rate_limit : option Z) (m : Manager) : option (string * Manager) :=
  let raw_key := "clb_" +:+ token in
  let key_hash := _hash_key raw_key in
  expires_at ← expiry now expires_days;
  let api_key :=
    {| key_id := key_id; key_hash := key_hash; raw_key := Some raw_key;
       name := name; created_at := now; expires_at := expires_at;
       last_used := None;
       permissions :=
         match permissions with
         | Some p => if bool_decide (p = ∅) then {["read"; "write"]} else p
         | None => {["read"; "write"]}
         end;
       rate_limit := rate_limit; enabled := true |} in
  Some (raw_key,
        {| _keys := Json.dict_set key_id api_key (_keys m);
           _hash_to_key := <[key_hash := key_id]> (_hash_to_key m) |}).

(** [APIKeyManager.validate_key]: the key found, with its [last_used]
    updated, and the manager afterwards. *)
Definition validate_key (now : Z) (raw_key : string) (m : Manager)
  : option APIKey * Manager :=
  if negb (truthy (Some raw_key)) || negb (String.prefix "clb_" raw_key)
  then (None, m)
  else
    match _hash_to_key m !! _hash_key raw_key with
    | Some key_id =>
        if truthy (Some key_id) then
          match dict_get key_id (_keys m) with
          | Some api_key =>
              if is_valid now api_key then
                let api_key := update_last_used now api_key in
                (Some api_key,
                 {| _keys := Json.dict_set key_id api_key (_keys m);
                    _hash_to_key := _hash_to_key m |})
              else (None, m)
          | None => (None, m)
          end
        else (None, m)
    | None => (None, m)
    end.

(** [APIKeyManager.revoke_key] *)
Definition revoke_key (key_id : string) (m : Manager) : bool * Manager :=
  match dict_get key_id (_keys m) with
  | Some api_key =>
      (true,
       {| _keys := Json.dict_set key_id (disable api_key) (_keys m);
          _hash_to_key := _hash_to_key m |})
  | None => (false, m)
  end.

(** [APIKeyManager.delete_key]; [None] when line 180 raises [KeyError]
    because the hash of the key is not in [_hash_to_key]. *)
Definition delete_key (key_id : string) (m : Manager)
  : option (bool * Manager) :=
  match dict_get key_id (_keys m) with
  | Some api_key =>
      match _hash_to_key m !! key_hash api_key with
      | Some _ =>
          Some (true,
                {| _keys := dict_del key_id (_keys m);
                   _hash_to_key := delete (key_hash api_key) (_hash_to_key m) |})
      | None => None
      end
  | None => Some (false, m)
  end.

(** [APIKeyManager.get_key] *)
Definition get_key (key_id : string) (m : Manager) : option APIKey :=
  dict_get key_id (_keys m).

(** [APIKeyManager.list_keys] *)
Definition list_keys (m : Manager) : list APIKey := (_keys m).*2.

(** Lines 206-209: the identifiers of the expired keys, in the order of
    [_keys]. *)
Definition expired_ids (now : Z) (m : Manager) : list string :=
  (filter (λ kv, expired now kv.2 = true) (_keys m)).*1.

(** Lines 211-212: the deletions, one after the other; [None] as soon as
    one raises. *)
Fixpoint delete_all (ids : list string) (m : Manager) : option Manager :=
  match ids with
  | [] => Some m
  | key_id :: ids' =>
      r ← delete_key key_id m; delete_all ids' r.2
  end.

(** [APIKeyManager.cleanup_expired]: the number of keys removed and the
    manager afterwards. *)
Definition cleanup_expired (now : Z) (m : Manager) : option (Z * Manager) :=
  let expired := expired_ids now m in
  m' ← delete_all expired m;
  Some (Z.of_nat (length expired), m').

(** *** Vocabulary of the statements about the manager *)

(** The two dictionaries agree: a key is stored under its own identifier,
    identifiers are stored once, and the hashes recorded are exactly the
    hashes of the keys stored, each leading to its key. *)
Definition consistent (m : Manager) : Prop :=
  NoDup (_keys m).*1
  ∧ (∀ kid k, dict_get kid (_keys m) = Some k → key_id k = kid)
  ∧ (∀ kid k, dict_get kid (_keys m) = Some k →
              _hash_to_key m !! key_hash k = Some kid)
  ∧ (∀ h kid, _hash_to_key m !! h = Some kid →
              ∃ k, dict_get kid (_keys m) = Some k ∧ key_hash k = h).

(** The time until which a key created at [now] can be used: none when
    [expires_days] is absent or zero. *)
Definition usable_at (now : Z) (expires_days : option Z) (later : Z) : Prop :=
  match expires_days with
  | Some d => d = 0 ∨ later ≤ now + d * microseconds_per_day
  | None => True
  end.

End Manager.

(** A manager without keys. *)
Definition empty_manager : Manager := {| _keys := []; _hash_to_key := ∅ |}.

End ApiKeys.

(** ** Further concrete inputs *)

Module EncoderScenarios.
Import Compat.

(** A turn with text, a fingerprint, a usage and the result of a tool. *)
Definition sample_events : list Event :=
  [Assistant (Some "Hel");
   MetadataEvent (Some "fp_44709d6fcb");
   UsageEvent {| prompt_tokens := 3; completion_tokens := 2;
                 total_tokens := 5 |};
   ToolResult (Some "call_a") (Some "get_weather") (Some "sunny");
   Assistant (Some "lo")].

End EncoderScenarios.

Module PromptScenarios.
Import Skills Prompt SkillScenarios.

(** A skill whose description is empty. *)
Definition blank_skill : Skill :=
  {| name := AStr "notes";
     description := AStr "";
     instructions := "Keep notes short.";
     tags := TagsList [AStr "obsidian"];
     version := AStr "1.0.0" |}.

(** A prompt directory with both files. *)
Definition prompt_files : gmap string string :=
  {[ "base.md" := "You are ClawdBot." +:+ nl +:+ "{{SKILLS_SUMMARY}}";
     "soul.md" := "Be kind." ]}.

(** A prompt directory without [base.md]. *)
Definition soul_only_files : gmap string string :=
  {[ "soul.md" := "Be kind." ]}.

End PromptScenarios.

Module ApiKeysScenarios.
Import ApiKeys.

(** A stand-in for the digest: the key itself. *)
Definition plain_hash (raw_key : string) : string := raw_key.

(** A key created at time 1000 for one day. *)
Definition first_key : APIKey :=
  {| key_id := "k1"; key_hash := "clb_s3cr3t"; raw_key := Some "clb_s3cr3t";
     name := "ci"; created_at := 1000;
     expires_at := Some (1000 + 1 * microseconds_per_day);
     last_used := None; permissions := {["read"; "write"]};
     rate_limit := None; enabled := true |}.

(** The manager that holds this key only: the empty manager after
    [create_key] at time 1000, for one day, with the random strings [k1]
    and [s3cr3t]. *)
Definition one_key_manager : Manager :=
  {| _keys := [("k1", first_key)];
     _hash_to_key := <["clb_s3cr3t" := "k1"]> ∅ |}.

(** The manager after the key was validated at time 2000. *)
Definition used_manager : Manager :=
  (validate_key plain_hash 2000 "clb_s3cr3t" one_key_manager).2.

End ApiKeysScenarios.
(** * Properties of the normalizer *)

Module ProviderProofs.
Import Provider.

Lemma append_empty_r (s : string) : s +:+ "" = s.
Proof.
  induction s as [|c s IH]; [done|].
  change (String c (s +:+ "") = String c s). by rewrite IH.
Qed.

Lemma append_assoc (s1 s2 s3 : string) : (s1 +:+ s2) +:+ s3 = s1 +:+ s2 +:+ s3.
Proof.
  induction s1 as [|c s1 IH]; [done|].
  change (String c ((s1 +:+ s2) +:+ s3) = String c (s1 +:+ s2 +:+ s3)).
  by rewrite IH.
Qed.

Lemma truthy_str_or (o : option string) (d : string) :
  truthy o = true → str_or o d = default "" o.
Proof. by destruct o as [[|]|]. Qed.

Lemma falsy_str_or (o : option string) (d : string) :
  truthy o = false → str_or o d = d.
Proof. by destruct o as [[|]|]. Qed.

Lemma falsy_default (o : option string) : truthy o = false → default "" o = "".
Proof. by destruct o as [[|]|]. Qed.

(** ** The buffer *)

Lemma buf_get_dict_set (idx j : Z) (a : Accumulator) (b : Buffer) :
  buf_get j (Json.dict_set idx a b)
  = if decide (j = idx) then Some a else buf_get j b.
Proof.
  induction b as [|[k a'] b IH]; simpl.
  - by destruct (decide (j = idx)).
  - destruct (decide (idx = k)) as [->|Hne]; simpl.
    + by destruct (decide (j = k)).
    + destruct (decide (j = k)) as [->|]; simpl.
      * by rewrite decide_False by done.
      * apply IH.
Qed.

Lemma buf_get_alter (f : Accumulator → Accumulator) (idx j : Z) (b : Buffer) :
  buf_get j (buf_alter f idx b)
  = if decide (j = idx) then f <$> buf_get j b else buf_get j b.
Proof.
  induction b as [|[k a] b IH]; simpl.
  - by destruct (decide (j = idx)).
  - destruct (decide (idx = k)) as [->|Hne]; simpl.
    + by destruct (decide (j = k)).
    + destruct (decide (j = k)) as [->|]; simpl.
      * by rewrite decide_False by done.
      * apply IH.
Qed.

Lemma buf_keys_alter (f : Accumulator → Accumulator) (idx : Z) (b : Buffer) :
  buf_keys (buf_alter f idx b) = buf_keys b.
Proof.
  unfold buf_keys. induction b as [|[k a] b IH]; [done|].
  cbn [buf_alter]. destruct (decide (idx = k)); rewrite !fmap_cons; [done|].
  by rewrite IH.
Qed.

Lemma buf_keys_dict_set (idx : Z) (a : Accumulator) (b : Buffer) :
  buf_mem idx b = false →
  buf_keys (Json.dict_set idx a b) = buf_keys b ++ [idx].
Proof.
  unfold buf_keys, buf_mem. induction b as [|[k a'] b IH]; [done|].
  cbn [buf_get Json.dict_set]. destruct (decide (idx = k)); [done|].
  intros Hm. rewrite !fmap_cons, IH by done. done.
Qed.

(** A delta touches the entry of its own index only. *)
Lemma accumulate_other_index (b : Buffer) (tc : ChoiceDeltaToolCall) (j : Z) :
  j ≠ tc_index tc → buf_get j (accumulate b tc) = buf_get j b.
Proof.
  intros Hne. unfold accumulate.
  assert (buf_get j (if buf_mem (tc_index tc) b then b
                     else Json.dict_set (tc_index tc) (init_entry tc) b)
          = buf_get j b) as Hb1.
  { destruct (buf_mem _ b); [done|].
    rewrite buf_get_dict_set. by rewrite decide_False. }
  destruct (tc_function tc) as [f|]; [|done].
  destruct (truthy (fn_name f)), (truthy (fn_arguments f));
    rewrite ?buf_get_alter, ?decide_False by done; done.
Qed.

(** Entries are created at the end and never move: the order of the buffer
    is the order in which the indices first appeared. *)
Lemma accumulate_keys (b : Buffer) (tc : ChoiceDeltaToolCall) :
  buf_keys (accumulate b tc)
  = if buf_mem (tc_index tc) b then buf_keys b
    else buf_keys b ++ [tc_index tc].
Proof.
  unfold accumulate.
  assert (buf_keys (if buf_mem (tc_index tc) b then b
                    else Json.dict_set (tc_index tc) (init_entry tc) b)
          = if buf_mem (tc_index tc) b then buf_keys b
            else buf_keys b ++ [tc_index tc]) as Hb1.
  { destruct (buf_mem _ b) eqn:Hm; [done|]. by apply buf_keys_dict_set. }
  destruct (tc_function tc) as [f|]; [|done].
  destruct (truthy (fn_name f)), (truthy (fn_arguments f));
    rewrite ?buf_keys_alter; done.
Qed.

(** The identifier of an entry is set when the entry is created and is
    not written again. *)
Lemma accumulate_keeps_id (b : Buffer) (tc : ChoiceDeltaToolCall) (j : Z)
    (a : Accumulator) :
  buf_get j b = Some a →
  ∃ a', buf_get j (accumulate b tc) = Some a' ∧ acc_id a' = acc_id a.
Proof.
  intros Hj. destruct (decide (j = tc_index tc)) as [->|Hne].
  - unfold accumulate, buf_mem. rewrite Hj.
    destruct (tc_function tc) as [f|]; [|eauto].
    destruct (truthy (fn_name f)), (truthy (fn_arguments f));
      rewrite ?buf_get_alter, ?decide_True, ?Hj by done; simpl; eauto.
  - rewrite accumulate_other_index by done. eauto.
Qed.

Lemma accumulate_creates (b : Buffer) (tc : ChoiceDeltaToolCall) :
  buf_get (tc_index tc) b = None →
  ∃ a, buf_get (tc_index tc) (accumulate b tc) = Some a
       ∧ acc_id a = str_or (tc_id tc) ("call_" +:+ pretty (tc_index tc)).
Proof.
  intros Hj. unfold accumulate, buf_mem. rewrite Hj.
  destruct (tc_function tc) as [f|].
  - destruct (truthy (fn_name f)), (truthy (fn_arguments f));
      rewrite ?buf_get_alter, ?decide_True, ?buf_get_dict_set, ?decide_True
        by done; simpl; eauto.
  - rewrite buf_get_dict_set, decide_True by done. eauto.
Qed.

Lemma foldl_accumulate_keeps_id (tcs : list ChoiceDeltaToolCall) (b : Buffer)
    (j : Z) (a : Accumulator) :
  buf_get j b = Some a →
  ∃ a', buf_get j (foldl accumulate b tcs) = Some a' ∧ acc_id a' = acc_id a.
Proof.
  revert b a. induction tcs as [|tc tcs IH]; intros b a Hj; simpl; [eauto|].
  destruct (accumulate_keeps_id b tc j a Hj) as (a1 & H1 & Hid1).
  destruct (IH _ _ H1) as (a2 & H2 & Hid2).
  exists a2. split; [done | congruence].
Qed.

(** ** Reassembly of one call *)

Lemma reassemble_nil (a : Accumulator) : reassemble a [] = a.
Proof. destruct a. unfold reassemble; simpl. by rewrite append_empty_r. Qed.

Lemma reassemble_cons (a : Accumulator) (tc : ChoiceDeltaToolCall)
    (tcs : list ChoiceDeltaToolCall) :
  reassemble a (tc :: tcs) = reassemble (reassemble a [tc]) tcs.
Proof.
  unfold reassemble; simpl. f_equal.
  by rewrite append_empty_r, append_assoc.
Qed.

Lemma accumulate_single (idx : Z) (a : Accumulator) (tc : ChoiceDeltaToolCall) :
  tc_index tc = idx → accumulate [(idx, a)] tc = [(idx, reassemble a [tc])].
Proof.
  destruct tc as [j id fn], a as [i n s]. simpl. intros ->.
  unfold accumulate, buf_mem, reassemble, concat_fragments, fragment_of,
    last_name, set_name, add_arguments.
  simpl. rewrite decide_True by done.
  destruct fn as [[[[|c1 n1]|] [[|c2 s2]|]]|]; simpl;
    repeat (case_decide; simpl); rewrite ?append_empty_r; done.
Qed.

Lemma foldl_accumulate_single (idx : Z) (tcs : list ChoiceDeltaToolCall)
    (a : Accumulator) :
  Forall (λ tc, tc_index tc = idx) tcs →
  foldl accumulate [(idx, a)] tcs = [(idx, reassemble a tcs)].
Proof.
  intros Hall. revert a.
  induction Hall as [|tc tcs Htc _ IH]; intros a; simpl.
  - by rewrite reassemble_nil.
  - rewrite accumulate_single by done. rewrite IH. by rewrite <- reassemble_cons.
Qed.

Lemma accumulate_first (tc : ChoiceDeltaToolCall) :
  accumulate [] tc = [(tc_index tc, reassemble (init_entry tc) [tc])].
Proof.
  unfold accumulate at 1, buf_mem. simpl.
  change [(tc_index tc, init_entry tc)]
    with (Json.dict_set (tc_index tc) (init_entry tc) []).
  pose proof (accumulate_single (tc_index tc) (init_entry tc) tc eq_refl) as Hs.
  unfold accumulate, buf_mem in Hs. simpl in Hs.
  rewrite decide_True in Hs by done. exact Hs.
Qed.

Section Generic.
Context `{JsonCodec}.

(** ** The loop *)

Lemma step_buffer (b : Buffer) (k : Chunk) :
  buffer (step b k) = foldl accumulate b (deltas_of k).
Proof.
  unfold step, deltas_of. destruct (choices k) as [|c rest]; [done|].
  by destruct (finish_events _ c k).
Qed.

Lemma run_app (b : Buffer) (ks1 ks2 : list Chunk) :
  run b (ks1 ++ ks2)
  = match raised (run b ks1) with
    | Some _ => run b ks1
    | None =>
        {| yielded := yielded (run b ks1)
                        ++ yielded (run (buffer (run b ks1)) ks2);
           buffer := buffer (run (buffer (run b ks1)) ks2);
           raised := raised (run (buffer (run b ks1)) ks2) |}
    end.
Proof.
  revert b. induction ks1 as [|k ks1 IH]; intros b.
  - cbn [app run raised yielded buffer]. by destruct (run b ks2).
  - cbn [app run]. destruct (raised (step b k)) eqn:Hr.
    + by rewrite Hr.
    + rewrite IH. cbn [raised].
      destruct (raised (run (buffer (step b k)) ks1)) eqn:Hr1;
        cbn [yielded buffer raised]; [by rewrite Hr1 | by rewrite app_assoc].
Qed.

(** The chunks read are all the chunks when nothing is raised. *)
Lemma consumed_all (b : Buffer) (ks : list Chunk) :
  raised (run b ks) = None → consumed b ks = ks.
Proof.
  revert b. induction ks as [|k ks IH]; intros b; [done|].
  cbn [run consumed]. destruct (raised (step b k)) eqn:Hr.
  - by rewrite Hr.
  - cbn [raised]. intros Hrun. by rewrite IH.
Qed.

(** The buffer only ever absorbs tool-call deltas: those of the chunks
    read. *)
Lemma run_buffer (b : Buffer) (ks : list Chunk) :
  buffer (run b ks) = foldl accumulate b (consumed b ks ≫= deltas_of).
Proof.
  revert b. induction ks as [|k ks IH]; intros b; [done|].
  cbn [run consumed]. rewrite bind_cons, foldl_app, <- step_buffer.
  destruct (raised (step b k)) eqn:Hr; [done|].
  cbn [buffer]. apply IH.
Qed.

(** ** Properties *)

Lemma no_finish_events (b : Buffer) (c : Choice) (k : Chunk) :
  truthy (finish_reason c) = false → finish_events b c k = Returns [].
Proof. unfold finish_events. by intros ->. Qed.

Lemma side_events_not_terminal (d : ChoiceDelta) (k : Chunk) :
  Forall (λ ev, is_tool_calls ev = false ∧ is_done ev = false
                ∧ is_error ev = false)
         (text_events d ++ metadata_events k ++ usage_events k).
Proof.
  unfold text_events, metadata_events, usage_events.
  destruct (content d), (truthy (system_fingerprint k)), (usage k);
    repeat constructor.
Qed.

(** What a chunk with a finish reason adds. *)
Lemma finish_events_finish (b : Buffer) (c : Choice) (k : Chunk) :
  truthy (finish_reason c) = true →
  finish_events b c k
  = match b with
    | [] => Returns [Done (default "" (finish_reason c)) (usage k)]
    | _ =>
        match flush b with
        | Returns calls =>
            Returns [ToolCalls calls;
                     Done (default "" (finish_reason c)) (usage k)]
        | Raises e => Raises e
        end
    end.
Proof.
  unfold finish_events. intros ->. destruct b as [|entry b]; [done|].
  by destruct (flush (entry :: b)).
Qed.

Lemma finish_events_no_error (b : Buffer) (c : Choice) (k : Chunk)
    (evs : list LLMResponse) :
  finish_events b c k = Returns evs → Forall (λ ev, is_error ev = false) evs.
Proof.
  destruct (truthy (finish_reason c)) eqn:Hfin.
  - rewrite finish_events_finish by done. destruct b as [|entry b].
    + intros [= <-]. repeat constructor.
    + destruct (flush (entry :: b)); [|done].
      intros [= <-]. repeat constructor.
  - rewrite no_finish_events by done. intros [= <-]. constructor.
Qed.

(** The loop itself yields no error event. *)
Lemma step_no_error (b : Buffer) (k : Chunk) :
  Forall (λ ev, is_error ev = false) (yielded (step b k)).
Proof.
  unfold step. destruct (choices k) as [|c rest]; [constructor|].
  pose proof (side_events_not_terminal (delta c) k) as Hside.
  apply Forall_app in Hside as [Htext Hside].
  destruct (finish_events _ c k) as [evs|e] eqn:Hfin; cbn [yielded].
  - rewrite !Forall_app. split; [|split].
    + eapply Forall_impl; [exact Htext|]. by intros ev (_ & _ & ?).
    + by eapply finish_events_no_error.
    + apply Forall_app.
      eapply Forall_impl; [exact Hside|]. by intros ev (_ & _ & ?).
  - eapply Forall_impl; [exact Htext|]. by intros ev (_ & _ & ?).
Qed.

Lemma run_no_error (b : Buffer) (ks : list Chunk) :
  Forall (λ ev, is_error ev = false) (yielded (run b ks)).
Proof.
  revert b. induction ks as [|k ks IH]; intros b; cbn [run]; [constructor|].
  pose proof (step_no_error b k) as Hs.
  destruct (raised (step b k)); [done|]. cbn [yielded].
  apply Forall_app. by split.
Qed.

Lemma step_no_finish (b : Buffer) (k : Chunk) :
  no_finish k = true →
  raised (step b k) = None
  ∧ Forall (λ ev, is_tool_calls ev = false ∧ is_done ev = false)
           (yielded (step b k)).
Proof.
  unfold step, no_finish. destruct (choices k) as [|c rest].
  - intros _. split; [done | constructor].
  - intros Hnf%negb_true_iff. rewrite no_finish_events by done.
    cbn [raised yielded app]. split; [done|].
    eapply Forall_impl; [apply side_events_not_terminal|].
    intros ev (Ht & Hd & _). by split.
Qed.

Lemma run_no_finish (b : Buffer) (ks : list Chunk) :
  Forall (λ k, no_finish k = true) ks →
  raised (run b ks) = None
  ∧ Forall (λ ev, is_tool_calls ev = false ∧ is_done ev = false)
           (yielded (run b ks)).
Proof.
  intros Hnf. revert b. induction Hnf as [|k ks Hk _ IH]; intros b.
  - split; [done | constructor].
  - cbn [run]. destruct (step_no_finish b k Hk) as [-> Hs].
    destruct (IH (buffer (step b k))) as [Hr Hy].
    cbn [raised yielded]. split; [done|]. by apply Forall_app.
Qed.

(** C5.  As long as no chunk carries a finish reason, the events yielded
    contain no completed tool call (and no end-of-turn event), whether the
    upstream goes on, ends or fails; the only effect of the tool-call deltas
    received so far is on the buffer, which has absorbed them in order, and
    nothing is raised inside the loop. *)
Theorem no_complete_call_before_finish (ks : list Chunk)
    (failure : option string) :
  Forall (λ k, no_finish k = true) ks →
  Forall (λ ev, is_tool_calls ev = false ∧ is_done ev = false)
         (stream ks failure)
  ∧ buffer (run [] ks) = foldl accumulate [] (ks ≫= deltas_of)
  ∧ raised (run [] ks) = None.
Proof.
  intros Hnf. destruct (run_no_finish [] ks Hnf) as [Hr Hy].
  split; [|split; [|done]].
  - unfold stream. rewrite Hr. apply Forall_app. split; [done|].
    destruct failure; repeat constructor.
  - by rewrite run_buffer, consumed_all.
Qed.

(** C7.  The upstream raises after the chunks [ks].  The events then end
    with one error event: it is the only error event and the last event, so
    that nothing, in particular no end-of-turn event, follows it, and it
    comes after all the events formed before it.  When the loop has read
    all of [ks], these are the events of the chunks delivered, all of them,
    and the error event carries the text of the upstream's exception; when
    an exception was raised inside the loop, on a chunk of [ks], the stream
    has ended there, with the error event of that exception. *)
Theorem transport_failure_yields_one_error (ks : list Chunk) (msg : string) :
  (raised (run [] ks) = None →
   stream ks (Some msg) = stream ks None ++ [Error msg]
   ∧ Forall (λ ev, is_error ev = false) (stream ks None)
   ∧ last (stream ks (Some msg)) = Some (Error msg))
  ∧ length (filter (λ ev, is_error ev = true) (stream ks (Some msg))) = 1%nat
  ∧ ∃ m, stream ks (Some msg) = yielded (run [] ks) ++ [Error m]
         ∧ last (stream ks (Some msg)) = Some (Error m)
         ∧ Forall (λ ev, is_error ev = false) (yielded (run [] ks)).
Proof.
  pose proof (run_no_error [] ks) as Hne.
  assert (filter (λ ev, is_error ev = true) (yielded (run [] ks)) = [])
    as Hnone.
  { induction Hne as [|ev evs Hev _ IH]; [done|].
    rewrite filter_cons_False; [done | congruence]. }
  unfold stream. split; [|split].
  - intros ->. rewrite app_nil_r. by rewrite last_snoc.
  - rewrite filter_app, length_app, Hnone. by destruct (raised (run [] ks)).
  - destruct (raised (run [] ks)) as [e|].
    + exists e. by rewrite last_snoc.
    + exists msg. by rewrite last_snoc.
Qed.

Lemma no_tool_calls_filter (evs : list LLMResponse) :
  Forall (λ ev, is_tool_calls ev = false) evs →
  filter (λ ev, is_tool_calls ev = true) evs = [].
Proof.
  intros Hev. induction Hev as [|ev evs Hev _ IH]; [done|].
  rewrite filter_cons_False; [done | congruence].
Qed.

(** What the flush of a buffer with one entry gives. *)
Lemma flush_single (idx : Z) (entry : Accumulator) (calls : list ToolCall) :
  flush [(idx, entry)] = Returns calls →
  ∃ call, calls = [call] ∧ complete entry = Returns call.
Proof.
  unfold flush, buf_values. cbn.
  destruct (complete entry) as [call|e]; cbn; [|done].
  destruct (match call_arguments call with
            | ArgsJson _ => Returns ()
            | ArgsValue v => py_repr v
            end); cbn; [|done].
  intros [= <-]. by exists call.
Qed.

(** C1, as the code has it.  The chunks [ks], without finish reason, and
    the chunk [k], with one, carry the deltas [tc :: tcs] of one tool call,
    all for the same index, spread over them in any way and mixed with
    text, fingerprints and usage.  What the flush builds from them is the
    entry [entry], which depends on the fragments only through their
    concatenation.  When completing this entry raises nothing, the stream
    has exactly one tool-call event, with exactly one call, the one
    completed from [entry]; when it raises, the stream has no tool-call
    event and ends, after the events of [ks] and the text of [k], with the
    error event of the exception. *)
Theorem chunking_invariance (ks : list Chunk) (k : Chunk) (c : Choice)
    (rest : list Choice) (reason : string) (tc : ChoiceDeltaToolCall)
    (tcs : list ChoiceDeltaToolCall) (failure : option string) :
  Forall (λ k, no_finish k = true) ks →
  choices k = c :: rest →
  finish_reason c = Some reason →
  truthy (Some reason) = true →
  (ks ++ [k]) ≫= deltas_of = tc :: tcs →
  Forall (λ d, tc_index d = tc_index tc) tcs →
  let entry :=
    {| acc_id := str_or (tc_id tc) ("call_" +:+ pretty (tc_index tc));
       acc_name := last_name "" (tc :: tcs);
       acc_arguments := concat_fragments (tc :: tcs) |} in
  (∀ calls, flush [(tc_index tc, entry)] = Returns calls →
     ∃ call, complete entry = Returns call
             ∧ filter (λ ev, is_tool_calls ev = true)
                      (stream (ks ++ [k]) failure) = [ToolCalls [call]])
  ∧ (∀ e, flush [(tc_index tc, entry)] = Raises e →
       stream (ks ++ [k]) failure
       = yielded (run [] ks) ++ text_events (delta c) ++ [Error e]
       ∧ filter (λ ev, is_tool_calls ev = true) (stream (ks ++ [k]) failure)
         = []).
Proof.
  intros Hnf Hc Hfin Hreason Hdeltas Hidx entry.
  destruct (run_no_finish [] ks Hnf) as [Hr Hy].
  assert (filter (λ ev, is_tool_calls ev = true) (yielded (run [] ks)) = [])
    as Hnone.
  { induction Hy as [|ev evs [Hev _] _ IH]; [done|].
    rewrite filter_cons_False; [done | congruence]. }
  assert (filter (λ ev, is_tool_calls ev = true) (text_events (delta c)) = [])
    as Htext.
  { unfold text_events. by destruct (content (delta c)). }
  assert (foldl accumulate (buffer (run [] ks)) (tool_calls (delta c))
          = [(tc_index tc, entry)]) as Hbuf.
  { rewrite run_buffer, consumed_all, <- foldl_app by done.
    assert ((ks ≫= deltas_of) ++ tool_calls (delta c) = tc :: tcs) as ->.
    { rewrite <- Hdeltas, bind_app. f_equal. cbn. unfold deltas_of.
      by rewrite Hc, app_nil_r. }
    cbn [foldl].
    rewrite accumulate_first, foldl_accumulate_single, <- reassemble_cons
      by done.
    unfold reassemble, init_entry. by cbn [acc_id acc_name acc_arguments]. }
  assert (run [] (ks ++ [k])
          = {| yielded := yielded (run [] ks)
                            ++ yielded (step (buffer (run [] ks)) k);
               buffer := buffer (step (buffer (run [] ks)) k);
               raised := raised (step (buffer (run [] ks)) k) |}) as Hrun.
  { rewrite run_app, Hr. cbn [run].
    destruct (step (buffer (run [] ks)) k) as [y b' [e|]]; cbn;
      by rewrite ?app_nil_r. }
  unfold stream. rewrite Hrun. cbn [yielded raised].
  unfold step. rewrite Hc, Hbuf.
  rewrite finish_events_finish by (by rewrite Hfin). rewrite Hfin.
  cbn [default].
  split.
  - intros calls Hflush.
    destruct (flush_single _ _ _ Hflush) as (call & -> & Hcall).
    exists call. split; [done|]. rewrite Hflush. cbn [yielded raised].
    pose proof (side_events_not_terminal (delta c) k) as Hside.
    apply Forall_app in Hside as [_ [Hmeta Husage]%Forall_app].
    rewrite !filter_app, Hnone, Htext.
    rewrite (no_tool_calls_filter (metadata_events k)),
      (no_tool_calls_filter (usage_events k)).
    + by destruct failure.
    + eapply Forall_impl; [exact Husage|]. by intros ev (? & _).
    + eapply Forall_impl; [exact Hmeta|]. by intros ev (? & _).
  - intros e Hflush. rewrite Hflush. cbn [yielded raised].
    split; [by rewrite <- app_assoc|].
    rewrite !filter_app, Hnone, Htext. done.
Qed.

(** C8, as the code has it.  The identifier of an index is fixed by the
    first delta received for that index: the identifier this delta supplies,
    or ["call_"] followed by the index when it supplies none or an empty
    one.  Nothing received afterwards, in the same chunk ([later]) or in
    later chunks ([ks]), changes it: an identifier supplied by a later delta
    is not used, and the call completed from the entry carries the
    identifier of the entry. *)
Theorem call_id_fixed_by_first_delta (b : Buffer) (tc : ChoiceDeltaToolCall)
    (later : list ChoiceDeltaToolCall) (ks : list Chunk) :
  buf_get (tc_index tc) b = None →
  ∃ a, buf_get (tc_index tc)
         (buffer (run (foldl accumulate (accumulate b tc) later) ks)) = Some a
       ∧ acc_id a = str_or (tc_id tc) ("call_" +:+ pretty (tc_index tc))
       ∧ ∀ call, complete a = Returns call → call_id call = acc_id a.
Proof.
  intros Hnew. rewrite run_buffer, <- foldl_app.
  destruct (accumulate_creates b tc Hnew) as (a0 & Ha0 & Hid0).
  destruct (foldl_accumulate_keeps_id
              (later ++ consumed (foldl accumulate (accumulate b tc) later) ks
                          ≫= deltas_of) _ _ _ Ha0)
    as (a & Ha & Hid).
  exists a. split; [done|]. split; [congruence|].
  intros call. unfold complete.
  destruct (decode_arguments (acc_arguments a)) as [args|]; cbn; [|done].
  destruct (render_arguments args); cbn; [|done]. by intros [= <-].
Qed.

Lemma complete_all_Forall2 (tcs : list Accumulator) (calls : list ToolCall) :
  complete_all tcs = Returns calls →
  Forall2 (λ a call, complete a = Returns call) tcs calls.
Proof.
  revert calls. induction tcs as [|a tcs IH]; intros calls; cbn.
  - intros [= <-]. constructor.
  - destruct (complete a) as [call|] eqn:Hcall; cbn; [|done].
    destruct (complete_all tcs) as [calls'|]; cbn; [|done].
    intros [= <-]. constructor; [done | by apply IH].
Qed.

Lemma flush_Forall2 (b : Buffer) (calls : list ToolCall) :
  flush b = Returns calls →
  Forall2 (λ a call, complete a = Returns call) (buf_values b) calls.
Proof.
  unfold flush. destruct (complete_all (buf_values b)) as [calls'|] eqn:Hc;
    cbn; [|done].
  destruct (log_calls calls'); cbn; [|done]. intros [= <-].
  by apply complete_all_Forall2.
Qed.

(** C3, as the code has it.  On a chunk whose first choice carries a finish
    reason, when completing the calls raises nothing, the events are: the
    text event of the chunk if any; then, when the buffer is not empty, one
    tool-call event that lists one completed call per buffer entry, in the
    order of the buffer (the order in which the indices first appeared, see
    [accumulate_keys]); then exactly one end-of-turn event with the finish
    reason; then the metadata and usage events of the chunk.  The buffer is
    kept as it is. *)
Theorem finish_flushes_in_insertion_order (b : Buffer) (k : Chunk) (c : Choice)
    (rest : list Choice) (reason : string) (calls : list ToolCall) :
  choices k = c :: rest →
  finish_reason c = Some reason →
  truthy (Some reason) = true →
  let b' := foldl accumulate b (tool_calls (delta c)) in
  flush b' = Returns calls →
  yielded (step b k)
  = text_events (delta c)
    ++ match b' with
       | [] => []
       | _ => [ToolCalls calls]
       end
    ++ [Done reason (usage k)] ++ metadata_events k ++ usage_events k
  ∧ Forall (λ ev, is_tool_calls ev = false ∧ is_done ev = false)
           (text_events (delta c) ++ metadata_events k ++ usage_events k)
  ∧ Forall2 (λ a call, complete a = Returns call) (buf_values b') calls
  ∧ length calls = length b'
  ∧ buffer (step b k) = b'
  ∧ raised (step b k) = None.
Proof.
  intros Hc Hfin Hreason b' Hflush.
  pose proof (flush_Forall2 b' calls Hflush) as Hcalls.
  assert (finish_events b' c k
          = Returns (match b' with [] => [] | _ => [ToolCalls calls] end
                     ++ [Done reason (usage k)])) as Hev.
  { rewrite finish_events_finish by (by rewrite Hfin). rewrite Hfin.
    cbn [default]. destruct b' as [|entry b'']; [done|]. by rewrite Hflush. }
  unfold step. rewrite Hc. fold b'. rewrite Hev. cbn [yielded buffer raised].
  split; [by rewrite <- !app_assoc|]. split; [|split; [done|split; [|done]]].
  - eapply Forall_impl; [apply side_events_not_terminal|].
    intros ev (Ht & Hd & _). by split.
  - apply Forall2_length in Hcalls. unfold buf_values in Hcalls.
    by rewrite length_fmap in Hcalls.
Qed.

(** C2, as the code has it.  On a chunk with a choice on which nothing is
    raised, the metadata event (for a non-empty fingerprint) and the usage
    event (for a usage) are the last events of the chunk, with or without a
    finish reason.  With a finish reason they come right after the
    end-of-turn event of the chunk, which carries the usage of the chunk
    itself. *)
Theorem side_channel_events_follow_done (b : Buffer) (k : Chunk) (c : Choice)
    (rest : list Choice) :
  choices k = c :: rest →
  raised (step b k) = None →
  ∃ pre,
    yielded (step b k) = pre ++ metadata_events k ++ usage_events k
    ∧ (∀ fp, system_fingerprint k = Some fp → truthy (Some fp) = true →
             metadata_events k = [Metadata fp])
    ∧ (∀ u, usage k = Some u → usage_events k = [Usage u])
    ∧ (∀ reason, finish_reason c = Some reason → truthy (Some reason) = true →
                 last pre = Some (Done reason (usage k))).
Proof.
  intros Hc. unfold step. rewrite Hc.
  destruct (finish_events (foldl accumulate b (tool_calls (delta c))) c k)
    as [evs|e] eqn:Hev; cbn [raised yielded]; [intros _|done].
  exists (text_events (delta c) ++ evs).
  split; [by rewrite <- !app_assoc|]. split; [|split].
  - intros fp Hfp Ht. unfold metadata_events. by rewrite Hfp, Ht.
  - intros [p q t] Hu. unfold usage_events. by rewrite Hu.
  - intros reason Hfin Ht.
    rewrite finish_events_finish in Hev by (by rewrite Hfin).
    rewrite Hfin in Hev. cbn [default] in Hev.
    destruct (foldl accumulate b (tool_calls (delta c))) as [|entry b'].
    + injection Hev as <-. by rewrite last_snoc.
    + destruct (flush (entry :: b')) as [calls|]; [|done].
      injection Hev as <-.
      change [ToolCalls calls; Done reason (usage k)]
        with ([ToolCalls calls] ++ [Done reason (usage k)]).
      by rewrite !app_assoc, last_snoc.
Qed.

(** C6, as the code has it.  When the reassembled text is empty or is not
    JSON, decoding gives the empty object and raises nothing.  The
    arguments of a completed call are the encoding of the empty object in
    these two cases, the encoding of the decoded object when the text
    decodes to an object, and the decoded value itself, not a JSON object,
    when the text decodes to anything else. *)
Theorem arguments_decoded_at_flush (a : Accumulator) :
  (acc_arguments a = "" ∨ json_loads (acc_arguments a) = Json.Malformed →
   decode_arguments (acc_arguments a) = Returns (Json.Obj []))
  ∧ ∀ call, complete a = Returns call →
      (acc_arguments a = "" ∨ json_loads (acc_arguments a) = Json.Malformed →
       ∃ s, json_dumps (Json.Obj []) = Returns s
            ∧ call_arguments call = ArgsJson s)
      ∧ (∀ d, acc_arguments a ≠ "" →
              json_loads (acc_arguments a) = Json.Found (Json.Obj d) →
              ∃ s, json_dumps (Json.Obj d) = Returns s
                   ∧ call_arguments call = ArgsJson s)
      ∧ (∀ v, acc_arguments a ≠ "" →
              json_loads (acc_arguments a) = Json.Found v →
              Json.is_dict v = false →
              call_arguments call = ArgsValue v
              ∧ is_json_object (call_arguments call) = false).
Proof.
  assert (acc_arguments a = "" ∨ json_loads (acc_arguments a) = Json.Malformed →
          decode_arguments (acc_arguments a) = Returns (Json.Obj [])) as Hempty.
  { unfold decode_arguments. destruct (acc_arguments a) as [|ch s]; [done|].
    intros [?| ->]; done. }
  split; [done|]. intros call. unfold complete.
  destruct (decode_arguments (acc_arguments a)) as [args|] eqn:Hdec;
    cbn; [|done].
  destruct (render_arguments args) as [arguments|] eqn:Hren; cbn; [|done].
  intros [= <-]. cbn [call_arguments].
  split; [|split].
  - intros Hcase. apply Hempty in Hcase. injection Hcase as ->.
    unfold render_arguments in Hren. cbn in Hren.
    destruct (json_dumps (Json.Obj [])) as [s|]; cbn in Hren; [|done].
    injection Hren as <-. by exists s.
  - intros d Hne Hload. unfold decode_arguments in Hdec.
    destruct (acc_arguments a) as [|ch s]; [done|]. rewrite Hload in Hdec.
    injection Hdec as <-. unfold render_arguments in Hren. cbn in Hren.
    destruct (json_dumps (Json.Obj d)) as [s'|]; cbn in Hren; [|done].
    injection Hren as <-. by exists s'.
  - intros v Hne Hload Hv. unfold decode_arguments in Hdec.
    destruct (acc_arguments a) as [|ch s]; [done|]. rewrite Hload in Hdec.
    injection Hdec as <-. unfold render_arguments in Hren.
    rewrite Hv in Hren. injection Hren as <-. by cbn.
Qed.

End Generic.

(** ** The properties at concrete streams *)

Import Scenarios.

Lemma no_complete_call_before_finish_witness :
  Forall (λ ev, is_tool_calls ev = false ∧ is_done ev = false)
         (stream text_chunks (Some "connection reset"))
  ∧ buffer (run [] text_chunks)
    = foldl accumulate [] (text_chunks ≫= deltas_of)
  ∧ raised (run [] text_chunks) = None.
Proof.
  apply (no_complete_call_before_finish text_chunks (Some "connection reset")).
  repeat constructor.
Defined.

Lemma chunking_invariance_witness :
  ∃ call,
    complete {| acc_id := "call_0"; acc_name := "get_weather";
                acc_arguments :=
                  "{" +:+ quoted "city" +:+ ":" +:+ quoted "SF" +:+ "}" |}
    = Returns call
    ∧ filter (λ ev, is_tool_calls ev = true) (stream weather_chunks None)
      = [ToolCalls [call]].
Proof.
  exact (proj1 (chunking_invariance
                  [tool_chunk [weather_first] None]
                  (tool_chunk [weather_second] (Some "tool_calls"))
                  {| delta := {| content := None;
                                 tool_calls := [weather_second] |};
                     finish_reason := Some "tool_calls" |}
                  [] "tool_calls" weather_first [weather_second] None
                  ltac:(repeat constructor) eq_refl eq_refl eq_refl eq_refl
                  ltac:(repeat constructor))
               [weather_call] eq_refl).
Defined.

(** C1 fails as stated: the fragments concatenate to an integer literal of
    4301 digits, which is valid JSON; [json.loads] raises [ValueError] on
    it, line 154 does not catch it, and the stream ends with an error event
    after the text of the last chunk, without any tool-call event. *)
Lemma integer_over_limit_ends_in_error :
  concat_fragments (long_integer_chunks ≫= deltas_of) = long_integer
  ∧ json_loads long_integer = Json.Refused (Json.int_limit_message 4301)
  ∧ stream long_integer_chunks None
    = [TextDelta "ok"; Error (Json.int_limit_message 4301)]
  ∧ filter (λ ev, is_tool_calls ev = true) (stream long_integer_chunks None)
    = [].
Proof. repeat split; by vm_compute. Qed.

Lemma call_id_fixed_by_first_delta_witness :
  ∃ a, buf_get 0
         (buffer
            (run (foldl accumulate
                    (accumulate [] (fn_delta 0 None (Some "get_weather")
                                      (Some "{")))
                    [])
               [tool_chunk [fn_delta 0 (Some "call_abc") None (Some "}")]
                  (Some "tool_calls")])) = Some a
       ∧ acc_id a = "call_0"
       ∧ ∀ call, complete a = Returns call → call_id call = acc_id a.
Proof.
  apply (call_id_fixed_by_first_delta []
           (fn_delta 0 None (Some "get_weather") (Some "{")) []
           [tool_chunk [fn_delta 0 (Some "call_abc") None (Some "}")]
              (Some "tool_calls")]).
  reflexivity.
Defined.

(** C8 fails as stated: the second delta for index 0 supplies the identifier
    [call_abc], and the completed call carries the synthesized [call_0]. *)
Lemma late_call_id_is_ignored :
  supplied_ids 0 late_id_chunks = ["call_abc"]
  ∧ emitted_ids (stream late_id_chunks None) = ["call_0"].
Proof. split; reflexivity. Qed.

Lemma finish_flushes_in_insertion_order_witness :
  yielded (step out_of_order_buffer (tool_chunk [] (Some "tool_calls")))
  = [ToolCalls out_of_order_calls; Done "tool_calls" None]
  ∧ buffer (step out_of_order_buffer (tool_chunk [] (Some "tool_calls")))
    = out_of_order_buffer.
Proof.
  destruct (@finish_flushes_in_insertion_order py_json out_of_order_buffer
              (tool_chunk [] (Some "tool_calls"))
              {| delta := {| content := None; tool_calls := [] |};
                 finish_reason := Some "tool_calls" |}
              [] "tool_calls" out_of_order_calls eq_refl eq_refl eq_refl
              ltac:(reflexivity))
    as (Hevs & _ & _ & _ & Hbuf & _).
  split; [exact Hevs | exact Hbuf].
Defined.

(** C3 fails as stated: call 1 was announced before call 0 and is flushed
    before it, in one event; the buffer still holds both entries after the
    flush. *)
Lemma flush_keeps_arrival_order_and_buffer :
  yielded (run [] out_of_order_chunks)
  = [ToolCalls out_of_order_calls; Done "tool_calls" None]
  ∧ buffer (run [] out_of_order_chunks) = out_of_order_buffer
  ∧ buf_keys out_of_order_buffer = [1; 0]
  ∧ ascending (buf_keys out_of_order_buffer) = false
  ∧ out_of_order_buffer ≠ [].
Proof. repeat split; done. Qed.

Lemma side_channel_events_follow_done_witness :
  ∃ pre,
    yielded (step [] finish_with_usage_chunk)
    = pre ++ metadata_events finish_with_usage_chunk
          ++ usage_events finish_with_usage_chunk
    ∧ (∀ fp, system_fingerprint finish_with_usage_chunk = Some fp →
             truthy (Some fp) = true →
             metadata_events finish_with_usage_chunk = [Metadata fp])
    ∧ (∀ u, usage finish_with_usage_chunk = Some u →
            usage_events finish_with_usage_chunk = [Usage u])
    ∧ (∀ reason,
         Some "stop" = Some reason → truthy (Some reason) = true →
         last pre = Some (Done reason (usage finish_with_usage_chunk))).
Proof.
  apply (side_channel_events_follow_done [] finish_with_usage_chunk
           {| delta := {| content := None; tool_calls := [] |};
              finish_reason := Some "stop" |} []); reflexivity.
Defined.

(** C2 fails as stated: on the chunk that carries the finish reason, the
    end-of-turn event is yielded first, the metadata and usage events after
    it. *)
Lemma done_precedes_side_channel_events :
  yielded (step [] finish_with_usage_chunk)
  = [Done "stop" (Some sample_usage); Metadata "fp_44709d6fcb";
     Usage sample_usage]
  ∧ position is_done (yielded (step [] finish_with_usage_chunk)) = Some 0%nat
  ∧ position is_metadata (yielded (step [] finish_with_usage_chunk))
    = Some 1%nat
  ∧ position is_usage (yielded (step [] finish_with_usage_chunk))
    = Some 2%nat.
Proof. repeat split; reflexivity. Qed.

(** Line 112 skips a chunk without choices before lines 178-189 are reached:
    the usage it carries yields no event. *)
Lemma usage_without_choices_is_skipped (b : Buffer) :
  step b usage_only_chunk = {| yielded := []; buffer := b; raised := None |}.
Proof. reflexivity. Qed.

(** On the chunk that carries the finish reason, an exception raised while
    the calls are completed leaves the chunk without end-of-turn, metadata
    and usage events. *)
Lemma raising_flush_drops_side_channel_events :
  yielded (run [] long_integer_chunks) = [TextDelta "ok"]
  ∧ raised (run [] long_integer_chunks)
    = Some (Json.int_limit_message 4301).
Proof. split; by vm_compute. Qed.

Lemma arguments_decoded_at_flush_witness :
  decode_arguments (acc_arguments truncated) = Returns (Json.Obj [])
  ∧ ∃ s, json_dumps (Json.Obj []) = Returns s
         ∧ call_arguments
             {| call_id := "call_0"; call_name := "get_weather";
                call_arguments := ArgsJson "{}" |} = ArgsJson s.
Proof.
  split.
  - exact (proj1 (arguments_decoded_at_flush truncated) (or_intror eq_refl)).
  - exact (proj1 (proj2 (arguments_decoded_at_flush truncated) _ eq_refl)
             (or_intror eq_refl)).
Defined.

(** C6 fails as stated: arguments that reassemble to the JSON array [[1]]
    are passed on as the decoded list, which is not a JSON object. *)
Lemma array_arguments_are_not_an_object :
  stream array_arguments_chunks None
  = [ToolCalls [ {| call_id := "call_a"; call_name := "f";
                    call_arguments := ArgsValue (Json.Arr [Json.Int 1]) |} ];
     Done "tool_calls" None]
  ∧ is_json_object (ArgsValue (Json.Arr [Json.Int 1])) = false.
Proof. split; reflexivity. Qed.

End ProviderProofs.

(** * Properties of skill matching *)

Module SkillsProofs.
Import Skills.

Lemma prefix_spec (p s : string) :
  String.prefix p s = true ↔ ∃ post, s = p +:+ post.
Proof.
  revert s. induction p as [|a p IH]; intros s.
  - split; [intros _; by exists s | by destruct s].
  - destruct s as [|b s]; simpl.
    + split; [done | intros [post Hp]; discriminate].
    + destruct (ascii_dec a b) as [->|Hne].
      * rewrite IH. split; intros [post Hp]; exists post.
        -- by rewrite Hp.
        -- by injection Hp.
      * split; [done | intros [post Hp]; injection Hp; congruence].
Qed.

Section Generic.
Variable lower : string → string.

Lemma contains_spec (s p : string) : contains s p = true ↔ occurs_in p s.
Proof.
  unfold occurs_in. split.
  - induction s as [|c s IH]; cbn [contains]; rewrite orb_true_iff.
    + intros [Hp|?]; [|done]. apply prefix_spec in Hp as [post ->].
      by exists "", post.
    + intros [Hp|Hc].
      * apply prefix_spec in Hp as [post Hp]. by exists "", post.
      * destruct (IH Hc) as (pre & post & ->). by exists (String c pre), post.
  - intros (pre & post & ->). induction pre as [|c pre IH].
    + assert (String.prefix p ("" +:+ p +:+ post) = true) as Hp
        by (apply prefix_spec; by exists post).
      destruct ("" +:+ p +:+ post); cbn [contains]; by rewrite Hp.
    + change (String c pre +:+ p +:+ post) with (String c (pre +:+ p +:+ post)).
      cbn [contains]. rewrite orb_true_iff. by right.
Qed.

Lemma relatedb_spec (query : string) (skill : Skill) :
  relatedb lower query skill = true ↔ related lower query skill.
Proof.
  unfold relatedb, related. rewrite existsb_exists.
  split; intros (item & Hin & Hocc); exists item.
  - split; [by apply list_elem_of_In | by apply contains_spec].
  - split; [by apply list_elem_of_In | by apply contains_spec].
Qed.

Lemma existsb_fmap {A B} (f : B → bool) (g : A → B) (l : list A) :
  existsb f (g <$> l) = existsb (λ x, f (g x)) l.
Proof.
  induction l as [|x l IH]; [done|].
  rewrite fmap_cons. cbn [existsb]. by rewrite IH.
Qed.

Lemma mapM_lower_of (items : list Atom) :
  Forall (λ x, is_Some (text_of x)) items →
  mapM (lower_of lower) items = Some (lower <$> omap text_of items).
Proof.
  intros Hall. induction Hall as [|x items [s Hs] _ IH]; [done|].
  destruct x as [|t|t]; try done. injection Hs as <-.
  cbn. by rewrite IH.
Qed.

(** On a complete descriptor, [items_to_check] is the list of its fields,
    lower-cased. *)
Lemma items_of_well_formed (skill : Skill) :
  well_formed skill →
  items_to_check lower skill = Some (lower <$> fields skill).
Proof.
  intros ([n Hn] & [d Hd] & items & Hit & Hall).
  unfold items_to_check, fields. rewrite Hit.
  destruct (name skill) as [|n'|]; try done.
  destruct (description skill) as [|d'|]; try done.
  cbn. by rewrite mapM_lower_of.
Qed.

Lemma any_in_fields (query : string) (skill : Skill) :
  any_in (lower <$> fields skill) (lower query) = relatedb lower query skill.
Proof. unfold any_in, relatedb. by rewrite existsb_fmap. Qed.

Lemma find_loop_filter (query : string) (skills matched : list Skill) :
  Forall well_formed skills →
  find_loop lower (lower query) skills matched
  = Some (matched ++ filter (λ s, relatedb lower query s = true) skills).
Proof.
  intros Hwf. revert matched.
  induction Hwf as [|skill skills Hskill _ IH]; intros matched; cbn [find_loop].
  - by rewrite app_nil_r.
  - rewrite items_of_well_formed by done. cbn [mbind option_bind].
    rewrite IH, any_in_fields.
    destruct (relatedb lower query skill) eqn:Hrel.
    + rewrite filter_cons_True by done. by rewrite <- app_assoc.
    + rewrite filter_cons_False by congruence. done.
Qed.

(** C9, as the code has it.  On a catalog whose descriptors are all
    complete (a name and a description that are texts, tags that are
    texts), [find_skills] returns, in catalog order, exactly the skills of
    which the name, the description or a tag, lower-cased, occurs in the
    lower-cased query; it returns no skill when there is none. *)
Theorem find_skills_returns_related (skills : list Skill) (query : string) :
  Forall well_formed skills →
  ∃ matched,
    find_skills lower skills query = Some matched
    ∧ matched = filter (λ s, relatedb lower query s = true) skills
    ∧ (∀ skill, skill ∈ matched ↔ skill ∈ skills ∧ related lower query skill)
    ∧ ((∀ skill, skill ∈ skills → ¬ related lower query skill) → matched = []).
Proof.
  intros Hwf. exists (filter (λ s, relatedb lower query s = true) skills).
  split; [unfold find_skills; by rewrite find_loop_filter|].
  split; [done|]. split.
  - intros skill. rewrite list_elem_of_filter, relatedb_spec. tauto.
  - intros Hnone. simpl. induction skills as [|s ss IH]; [done|].
    rewrite filter_cons_False.
    + apply IH; [by inversion Hwf|]. intros skill Hin. apply Hnone. by right.
    + rewrite relatedb_spec. apply Hnone. by left.
Qed.

End Generic.

Import SkillScenarios.

Lemma find_skills_returns_related_witness :
  ∃ matched,
    find_skills ascii_lower catalog "How do I CLEAN my desktop?" = Some matched
    ∧ matched = [cleanup_skill]
    ∧ (∀ skill, skill ∈ matched ↔
         skill ∈ catalog
         ∧ related ascii_lower "How do I CLEAN my desktop?" skill)
    ∧ ((∀ skill, skill ∈ catalog →
          ¬ related ascii_lower "How do I CLEAN my desktop?" skill) →
       matched = []).
Proof.
  exact (find_skills_returns_related ascii_lower catalog
           "How do I CLEAN my desktop?"
           ltac:(repeat constructor; eexists; try reflexivity;
                 repeat constructor; eexists; reflexivity)).
Defined.

(** C9 fails as stated: with one descriptor that has no description in the
    catalog, line 67 raises on it, and the query gets no skills at all,
    although the skill [cleanup_skill] of the catalog is related to it. *)
Lemma incomplete_descriptor_breaks_matching :
  find_skills ascii_lower catalog_with_draft "How do I CLEAN my desktop?"
  = None
  ∧ cleanup_skill ∈ catalog_with_draft
  ∧ related ascii_lower "How do I CLEAN my desktop?" cleanup_skill.
Proof.
  split; [reflexivity|]. split.
  - unfold catalog_with_draft, catalog. set_solver.
  - by apply relatedb_spec.
Qed.

End SkillsProofs.
(** * Properties of the endpoint *)

Module CompatProofs.
Import Compat EncoderVocabulary.

Section Ingest.
Variable get_full_system_prompt : string → option string.
Variable fresh : string.





End Ingest.

Import CompatScenarios.


(** When the prompt cannot be assembled, the request fails after line 214:
    the session of the request is left empty in the store. *)
Lemma failed_prompt_leaves_session_cleared :
  ingest (λ _, None) "1a2b3c4d" stale_store
    {| model := "gpt-4o"; messages := [plain "user" "hi"]; stream := true;
       max_tokens := None; user := Some "alice" |}
  = (None, <["alice" := {| history := [] |}]> stale_store).
Proof. reflexivity. Qed.

(** ** The wire encoder *)

Section Encoder.
Variable completion_id : string.
Variable created : Z.
Variable request : ChatCompletionRequest.

#[local] Abbreviation enc := (encode completion_id created request).
#[local] Abbreviation final := (final_chunk completion_id created request).

(** The first frame announces the role: no content, no finish reason. *)
Lemma first_chunk_announces_role (events : list Event)
    (failure : option string) :
  head (stream_response completion_id created request events failure)
  = Some (Data (initial_chunk completion_id created request))
  ∧ choice_delta <$> chunk_choices (initial_chunk completion_id created request)
    = [ {| delta_role := Some "assistant"; delta_content := None;
           delta_tool_calls := None |} ]
  ∧ finish_reason_of (initial_chunk completion_id created request) = None.
Proof. done. Qed.



End Encoder.

Import EncoderScenarios.



End CompatProofs.

(** * Further properties of the normalizer *)

Module StreamProofs.
Import Provider StreamVocabulary ProviderProofs.

Lemma reassemble_step (a : Accumulator) (tc : ChoiceDeltaToolCall)
    (tcs : list ChoiceDeltaToolCall) :
  reassemble (reassemble a [tc]) tcs = reassemble a (tc :: tcs).
Proof. by rewrite <- reassemble_cons. Qed.

(** What one delta does to the entry of its index. *)
Lemma accumulate_get_same (b : Buffer) (tc : ChoiceDeltaToolCall) :
  buf_get (tc_index tc) (accumulate b tc)
  = Some (reassemble (default (init_entry tc) (buf_get (tc_index tc) b)) [tc]).
Proof.
  unfold accumulate, buf_mem.
  set (idx := tc_index tc).
  set (a0 := default (init_entry tc) (buf_get idx b)).
  assert (buf_get idx (match buf_get idx b with
                       | Some _ => b
                       | None => Json.dict_set idx (init_entry tc) b
                       end) = Some a0) as Hb1.
  { subst a0. destruct (buf_get idx b) eqn:Hg; simpl; [done|].
    by rewrite buf_get_dict_set, decide_True. }
  destruct (buf_get idx b) as [a|] eqn:Hg; simpl in *.
  all: destruct a0 as [i n s];
    unfold reassemble, concat_fragments, fragment_of, last_name; simpl;
    destruct (tc_function tc) as [[[[|c1 n1]|] [[|c2 s2]|]]|]; simpl;
    rewrite ?buf_get_alter, ?decide_True, ?Hb1 by done; simpl;
    unfold set_name, add_arguments; simpl;
    rewrite ?append_empty_r; done.
Qed.

Lemma foldl_accumulate_get (tcs : list ChoiceDeltaToolCall) (b : Buffer)
    (idx : Z) :
  buf_get idx (foldl accumulate b tcs)
  = match buf_get idx b, for_index idx tcs with
    | Some a, own => Some (reassemble a own)
    | None, [] => None
    | None, tc :: rest => Some (reassemble (init_entry tc) (tc :: rest))
    end.
Proof.
  revert b. induction tcs as [|tc tcs IH]; intros b.
  - simpl. destruct (buf_get idx b); [by rewrite reassemble_nil | done].
  - cbn [foldl]. rewrite IH. unfold for_index.
    destruct (decide (tc_index tc = idx)) as [Heq|Hne].
    + rewrite filter_cons_True by done. subst idx.
      rewrite accumulate_get_same.
      destruct (buf_get (tc_index tc) b); simpl; by rewrite reassemble_step.
    + rewrite filter_cons_False by done.
      by rewrite accumulate_other_index by done.
Qed.

(** Deltas of several calls may arrive interleaved: after any sequence of
    deltas, the entry of an index is what the deltas of that index alone
    build, in their order, from the entry its first delta creates; the
    deltas of the other indices leave no trace in it. *)
Theorem interleaved_calls_reassemble_independently
    (tcs : list ChoiceDeltaToolCall) (idx : Z) :
  buf_get idx (foldl accumulate [] tcs)
  = match for_index idx tcs with
    | [] => None
    | tc :: rest => Some (reassemble (init_entry tc) (tc :: rest))
    end.
Proof. by rewrite foldl_accumulate_get. Qed.

Lemma buf_mem_keys (idx : Z) (b : Buffer) :
  buf_mem idx b = true ↔ idx ∈ buf_keys b.
Proof.
  unfold buf_mem, buf_keys. induction b as [|[k a] b IH].
  - split; [done | by intros ?%elem_of_nil].
  - rewrite fmap_cons, elem_of_cons. cbn [buf_get fst].
    destruct (decide (idx = k)) as [->|Hne]; [by split; [left|]|].
    rewrite IH. split; [by right | by intros [?|?]].
Qed.

Lemma first_appearance_elem (l : list Z) (i : Z) :
  i ∈ first_appearance l ↔ i ∈ l.
Proof.
  induction l as [|j l IH]; simpl; [done|].
  rewrite !elem_of_cons, list_elem_of_filter, IH.
  destruct (decide (i = j)); tauto.
Qed.

Lemma first_appearance_NoDup (l : list Z) : NoDup (first_appearance l).
Proof.
  induction l as [|j l IH]; simpl; [constructor|].
  constructor; [|by apply NoDup_filter].
  rewrite list_elem_of_filter. by intros [Hne _].
Qed.

Lemma foldl_accumulate_keys (tcs : list ChoiceDeltaToolCall) (b : Buffer) :
  buf_keys (foldl accumulate b tcs)
  = buf_keys b
    ++ filter (λ j, j ∉ buf_keys b) (first_appearance (tc_index <$> tcs)).
Proof.
  revert b. induction tcs as [|tc tcs IH]; intros b.
  - simpl. by rewrite app_nil_r.
  - cbn [foldl]. rewrite IH, accumulate_keys, fmap_cons.
    cbn [first_appearance].
    destruct (buf_mem (tc_index tc) b) eqn:Hm.
    + apply buf_mem_keys in Hm.
      rewrite filter_cons_False by (intros Hn; by apply Hn). f_equal.
      rewrite list_filter_filter. apply list_filter_iff.
      intros j. split; [|by intros [? _]]. intros Hj. split; [done|].
      intros ->. done.
    + assert (tc_index tc ∉ buf_keys b) as Hnot.
      { intros Hin%buf_mem_keys. congruence. }
      rewrite filter_cons_True by done. rewrite <- app_assoc. f_equal.
      cbn [app]. f_equal.
      rewrite list_filter_filter. apply list_filter_iff.
      intros j. rewrite elem_of_app, list_elem_of_singleton. tauto.
Qed.

(** The buffer holds one entry per index received, in the order in which
    the indices first appeared; this is the order in which a finish chunk
    lists the calls. *)
Theorem buffer_follows_first_appearance (tcs : list ChoiceDeltaToolCall) :
  buf_keys (foldl accumulate [] tcs) = first_appearance (tc_index <$> tcs)
  ∧ NoDup (buf_keys (foldl accumulate [] tcs))
  ∧ (∀ idx, idx ∈ buf_keys (foldl accumulate [] tcs)
            ↔ idx ∈ tc_index <$> tcs).
Proof.
  assert (buf_keys (foldl accumulate [] tcs)
          = first_appearance (tc_index <$> tcs)) as Hk.
  { rewrite foldl_accumulate_keys. cbn [buf_keys fmap list_fmap app].
    induction (first_appearance (tc_index <$> tcs)) as [|j l IH]; [done|].
    rewrite filter_cons_True; [by f_equal|]. by intros ?%elem_of_nil. }
  rewrite Hk. split; [done|]. split.
  - apply first_appearance_NoDup.
  - intros idx. apply first_appearance_elem.
Qed.

Section Generic.
Context `{JsonCodec}.

Lemma step_without_choices (b : Buffer) (k : Chunk) :
  has_choices k = false
  → step b k = {| yielded := []; buffer := b; raised := None |}.
Proof. unfold has_choices, step. by destruct (choices k). Qed.

Lemma run_filter_choices (ks : list Chunk) (b : Buffer) :
  run b (filter (λ k, has_choices k = true) ks) = run b ks.
Proof.
  revert b. induction ks as [|k ks IH]; intros b; [done|].
  destruct (has_choices k) eqn:Hc.
  - rewrite filter_cons_True by done. cbn [run].
    destruct (raised (step b k)); [done|]. by rewrite IH.
  - rewrite filter_cons_False by congruence. cbn [run].
    rewrite step_without_choices by done. cbn [raised buffer yielded app].
    rewrite IH. by destruct (run b ks).
Qed.

(** A chunk without choices is skipped whole: taking every such chunk out
    of the upstream changes nothing in what the stream yields, whatever
    fingerprint or usage these chunks carry. *)
Theorem chunks_without_choices_leave_no_trace (ks : list Chunk)
    (failure : option string) :
  stream (filter (λ k, has_choices k = true) ks) failure = stream ks failure.
Proof. unfold stream. by rewrite run_filter_choices. Qed.

Lemma texts_app (evs1 evs2 : list LLMResponse) :
  texts (evs1 ++ evs2) = texts evs1 ++ texts evs2.
Proof. unfold texts. apply omap_app. Qed.

Lemma contents_one (k : Chunk) :
  contents [k]
  = match choices k with
    | c :: _ => option_list (content (delta c))
    | [] => []
    end.
Proof.
  unfold contents. simpl. destruct (choices k) as [|c rest]; simpl; [done|].
  by destruct (content (delta c)).
Qed.

Lemma finish_events_texts (b : Buffer) (c : Choice) (k : Chunk)
    (evs : list LLMResponse) :
  finish_events b c k = Returns evs → texts evs = [].
Proof.
  destruct (truthy (finish_reason c)) eqn:Hfin.
  - rewrite finish_events_finish by done. destruct b as [|entry b].
    + by intros [= <-].
    + destruct (flush (entry :: b)); [|done]. by intros [= <-].
  - rewrite no_finish_events by done. by intros [= <-].
Qed.

(** The text of a chunk is yielded whether or not the chunk goes on to
    raise. *)
Lemma step_texts (b : Buffer) (k : Chunk) :
  texts (yielded (step b k)) = contents [k].
Proof.
  rewrite contents_one. unfold step.
  destruct (choices k) as [|c rest]; [done|].
  assert (texts (text_events (delta c)) = option_list (content (delta c)))
    as Htext.
  { unfold text_events. by destruct (content (delta c)). }
  destruct (finish_events _ c k) as [evs|e] eqn:Hev; cbn [yielded]; [|done].
  rewrite !texts_app, Htext, (finish_events_texts _ _ _ _ Hev).
  unfold metadata_events, usage_events.
  destruct (truthy (system_fingerprint k)), (usage k); cbn;
    by rewrite app_nil_r.
Qed.

Lemma run_texts (b : Buffer) (ks : list Chunk) :
  texts (yielded (run b ks)) = contents (consumed b ks).
Proof.
  revert b. induction ks as [|k ks IH]; intros b; [done|].
  cbn [run consumed]. pose proof (step_texts b k) as Hs.
  destruct (raised (step b k)); [done|].
  cbn [yielded]. rewrite texts_app, Hs, IH. unfold contents.
  by rewrite <- omap_app.
Qed.

(** Text is never buffered: the text events are the contents of the chunks
    read, one event per content that is not [None], an empty content
    included, in the order of the chunks; the chunks read are all the
    chunks unless an exception is raised inside the loop. *)
Theorem text_passes_through_in_order (ks : list Chunk)
    (failure : option string) :
  texts (stream ks failure) = contents (consumed [] ks)
  ∧ (raised (run [] ks) = None → texts (stream ks failure) = contents ks).
Proof.
  assert (texts (stream ks failure) = contents (consumed [] ks)) as Ht.
  { unfold stream. rewrite texts_app, run_texts.
    assert (texts (match raised (run [] ks) with
                   | Some e => [Error e]
                   | None => match failure with
                             | Some msg => [Error msg]
                             | None => []
                             end
                   end) = []) as ->
      by (by destruct (raised (run [] ks)), failure).
    by rewrite app_nil_r. }
  split; [done|]. intros Hr. by rewrite Ht, consumed_all.
Qed.

(** A finish chunk lists every call received since the start of the
    stream: the buffer it reads holds all the deltas of all the chunks so
    far, those listed by an earlier finish chunk included.  This is so
    whenever the chunks before it were all read and completing the calls
    raises nothing. *)
Theorem finish_lists_every_call_so_far (ks : list Chunk) (k : Chunk)
    (c : Choice) (rest : list Choice) (reason : string)
    (calls : list ToolCall) :
  choices k = c :: rest →
  finish_reason c = Some reason →
  truthy (Some reason) = true →
  raised (run [] ks) = None →
  let b := foldl accumulate [] ((ks ++ [k]) ≫= deltas_of) in
  flush b = Returns calls →
  listed_calls (yielded (step (buffer (run [] ks)) k))
  = match b with
    | [] => []
    | _ => [calls]
    end
  ∧ Forall2 (λ a call, complete a = Returns call) (buf_values b) calls.
Proof.
  intros Hc Hfin Hreason Hr b Hflush.
  split; [|by apply flush_Forall2].
  assert (foldl accumulate (buffer (run [] ks)) (tool_calls (delta c)) = b)
    as Hb.
  { subst b. rewrite run_buffer, consumed_all, <- foldl_app by done.
    rewrite bind_app. do 2 f_equal. cbn. unfold deltas_of.
    by rewrite Hc, app_nil_r. }
  unfold step. rewrite Hc, Hb.
  rewrite finish_events_finish by (by rewrite Hfin).
  unfold listed_calls, text_events, metadata_events, usage_events.
  destruct b as [|entry b'].
  - cbn [yielded].
    destruct (content (delta c)), (truthy (system_fingerprint k)),
      (usage k); done.
  - rewrite Hflush. cbn [yielded].
    destruct (content (delta c)), (truthy (system_fingerprint k)),
      (usage k); done.
Qed.

End Generic.

(** Two deltas that supply no identifier get the same synthesized
    identifier only when they have the same index. *)
Theorem synthesized_ids_are_distinct (tc1 tc2 : ChoiceDeltaToolCall) :
  truthy (tc_id tc1) = false →
  truthy (tc_id tc2) = false →
  acc_id (init_entry tc1) = acc_id (init_entry tc2)
  ↔ tc_index tc1 = tc_index tc2.
Proof.
  unfold init_entry. cbn [acc_id]. intros H1 H2.
  rewrite !falsy_str_or by done. split; [|by intros ->].
  intros Heq%(inj (String.app "call_")). by apply (inj pretty) in Heq.
Qed.

Import Scenarios.

Lemma synthesized_ids_are_distinct_witness :
  acc_id (init_entry (anonymous 0)) = acc_id (init_entry (anonymous 1))
  ↔ 0 = 1.
Proof.
  exact (synthesized_ids_are_distinct (anonymous 0) (anonymous 1)
           eq_refl eq_refl).
Defined.

Lemma finish_lists_every_call_so_far_witness :
  listed_calls
    (yielded (step (buffer (run [] out_of_order_chunks))
                (tool_chunk [] (Some "stop"))))
  = [out_of_order_calls]
  ∧ Forall2 (λ a call, complete a = Returns call)
            (buf_values out_of_order_buffer) out_of_order_calls.
Proof.
  exact (@finish_lists_every_call_so_far py_json out_of_order_chunks
           (tool_chunk [] (Some "stop"))
           {| delta := {| content := None; tool_calls := [] |};
              finish_reason := Some "stop" |}
           [] "stop" out_of_order_calls eq_refl eq_refl eq_refl eq_refl
           ltac:(reflexivity)).
Defined.

End StreamProofs.

(** * Further properties of the endpoint

    Like [Compat], these are properties of lines 209-394 of
    [openai_compat.py] as they are written. *)

Module EncoderProofs.
Import Compat EncoderVocabulary.

Section Encoder.
Variable completion_id : string.
Variable created : Z.
Variable request : ChatCompletionRequest.

#[local] Abbreviation enc := (encode completion_id created request).

Lemma contents_of_cons_data (c : ChatCompletionChunk) (frames : list Frame) :
  contents_of (Data c :: frames)
  = option_list (content_of c) ++ contents_of frames.
Proof. unfold contents_of. simpl. by destruct (content_of c). Qed.

Lemma encode_contents (events : list Event)
    (u0 : option ChatCompletionUsage) (fp0 : option string)
    (failure : option string) :
  Forall (λ ev, is_tool_use ev = false) events →
  contents_of (enc u0 fp0 events failure) = texts_of events.
Proof.
  intros Hev. revert u0 fp0.
  induction Hev as [|ev events Hev _ IH]; intros u0 fp0.
  - by destruct failure.
  - destruct ev as [[text|]|fp1|u|tool input|id tool result|type];
      try done; cbn [encode]; rewrite ?contents_of_cons_data, ?IH; done.
Qed.

(** Every text of the turn reaches the client, once and in order: the
    contents of the chunks are the texts of the assistant events, whether
    the turn ends well or fails, as long as it has no ["tool_use"] event. *)
Theorem text_chunks_follow_text_events (events : list Event)
    (failure : option string) :
  Forall (λ ev, is_tool_use ev = false) events →
  contents_of (stream_response completion_id created request events failure)
  = texts_of events.
Proof.
  intros Hev. unfold stream_response.
  rewrite contents_of_cons_data. by rewrite encode_contents.
Qed.

Lemma encode_failed (events : list Event)
    (u0 : option ChatCompletionUsage) (fp0 : option string) (e : string) :
  Forall (λ f, f ≠ DoneSentinel) (enc u0 fp0 events (Some e))
  ∧ Forall is_body_chunk (data_chunks (enc u0 fp0 events (Some e)))
  ∧ ∃ m, last (enc u0 fp0 events (Some e)) = Some (ErrorFrame m).
Proof.
  revert u0 fp0. induction events as [|ev events IH]; intros u0 fp0.
  - repeat split; [by repeat constructor | constructor | by eexists].
  - destruct ev as [[text|]|fp1|u|tool input|id tool result|type];
      cbn [encode]; try apply IH.
    + destruct (IH u0 fp0) as (Hs & Hb & m & Hm). repeat split.
      * by constructor.
      * change (data_chunks (Data ?c :: ?l)) with (c :: data_chunks l).
        by constructor.
      * exists m. by rewrite last_cons, Hm.
    + repeat split; [by repeat constructor | constructor | by eexists].
    + destruct (IH u0 fp0) as (Hs & Hb & m & Hm). repeat split.
      * by constructor.
      * change (data_chunks (Data ?c :: ?l)) with (c :: data_chunks l).
        by constructor.
      * exists m. by rewrite last_cons, Hm.
Qed.

(** When the turn raises, the client gets neither a chunk with a finish
    reason nor the [[DONE]] line: the stream ends with the error line. *)
Theorem failed_stream_is_cut_short (events : list Event) (e : string) :
  Forall (λ f, f ≠ DoneSentinel)
         (stream_response completion_id created request events (Some e))
  ∧ Forall is_body_chunk
      (data_chunks
         (stream_response completion_id created request events (Some e)))
  ∧ ∃ m, last (stream_response completion_id created request events (Some e))
         = Some (ErrorFrame m).
Proof.
  destruct (encode_failed events None None e) as (Hs & Hb & m & Hm).
  unfold stream_response. repeat split.
  - by constructor.
  - change (data_chunks (Data ?c :: ?l)) with (c :: data_chunks l).
    by constructor.
  - exists m. by rewrite last_cons, Hm.
Qed.

Lemma encode_tool_use (pre post : list Event) (tool : option string)
    (input : option Json.value) (u0 : option ChatCompletionUsage)
    (fp0 : option string) (failure : option string) :
  enc u0 fp0 (pre ++ ToolUse tool input :: post) failure
  = enc u0 fp0 (pre ++ [ToolUse tool input]) None.
Proof.
  revert u0 fp0. induction pre as [|ev pre IH]; intros u0 fp0; [done|].
  destruct ev as [[text|]|fp1|u|tool' input'|id tool' result|type];
    cbn [encode app]; rewrite ?IH; done.
Qed.

Lemma encode_tool_use_last (pre post : list Event) (tool : option string)
    (input : option Json.value) (u0 : option ChatCompletionUsage)
    (fp0 : option string) (failure : option string) :
  last (enc u0 fp0 (pre ++ ToolUse tool input :: post) failure)
  = Some (ErrorFrame "name 'json' is not defined").
Proof.
  revert u0 fp0. induction pre as [|ev pre IH]; intros u0 fp0; [done|].
  destruct ev as [[text|]|fp1|u|tool' input'|id tool' result|type];
    cbn [encode app]; rewrite ?last_cons, ?IH; done.
Qed.

(** A ["tool_use"] event ends the stream: line 322 raises, so the events
    after it are never encoded, and the stream ends with the error line
    about [json] instead of a final chunk and the [[DONE]] line, however
    the turn would have gone on. *)
Theorem tool_use_aborts_the_stream (pre post : list Event)
    (tool : option string) (input : option Json.value)
    (failure : option string) :
  stream_response completion_id created request
    (pre ++ ToolUse tool input :: post) failure
  = stream_response completion_id created request
      (pre ++ [ToolUse tool input]) None
  ∧ last (stream_response completion_id created request
            (pre ++ ToolUse tool input :: post) failure)
    = Some (ErrorFrame "name 'json' is not defined").
Proof.
  unfold stream_response. split.
  - by rewrite encode_tool_use.
  - by rewrite last_cons, encode_tool_use_last.
Qed.

End Encoder.

Section Ingest.

Lemma filter_query_none (msgs : list ChatMessage) :
  Forall (λ m, is_query_message m = false) msgs →
  filter (λ msg, role msg = "user" ∧ truthy (content msg) = true) msgs = [].
Proof.
  induction 1 as [|m msgs Hm _ IH]; [done|].
  rewrite filter_cons_False; [done|].
  intros [Hr Ht]. unfold is_query_message in Hm.
  rewrite Ht, bool_decide_eq_true_2 in Hm by done. done.
Qed.

(** The query used to select skills is the content of the latest user
    message whose content is not empty: the messages after it, of other
    roles or without content, do not count, nor do the messages before
    it. *)
Theorem latest_user_message_is_the_query (request : ChatCompletionRequest)
    (pre post : list ChatMessage) (msg : ChatMessage) :
  messages request = pre ++ msg :: post →
  is_query_message msg = true →
  Forall (λ m, is_query_message m = false) post →
  user_query request = default "" (content msg).
Proof.
  intros Hm Hq Hpost. unfold user_query. rewrite Hm.
  rewrite reverse_app, reverse_cons, filter_app, filter_app.
  rewrite (filter_query_none (reverse post)) by by apply Forall_reverse.
  unfold is_query_message in Hq. apply andb_true_iff in Hq as [Hr Ht].
  apply bool_decide_eq_true in Hr.
  rewrite (filter_cons_True _ msg) by done. done.
Qed.

(** Without such a message the query is empty. *)
Lemma no_user_message_no_query (request : ChatCompletionRequest) :
  Forall (λ m, is_query_message m = false) (messages request) →
  user_query request = "".
Proof.
  intros Hnone. unfold user_query.
  by rewrite (filter_query_none (reverse (messages request)))
    by by apply Forall_reverse.
Qed.

End Ingest.

Import CompatScenarios EncoderScenarios.

Lemma text_chunks_follow_text_events_witness :
  contents_of (stream_response "chatcmpl-0" 0 hello_request sample_events
                 (Some "connection reset"))
  = ["Hel"; "lo"].
Proof.
  exact (text_chunks_follow_text_events "chatcmpl-0" 0 hello_request
           sample_events (Some "connection reset") ltac:(repeat constructor)).
Defined.

Lemma latest_user_message_is_the_query_witness :
  user_query tool_request = "What is 2+2?".
Proof.
  exact (latest_user_message_is_the_query tool_request
           [plain "system" "Be brief."] [plain "tool" "4"]
           (plain "user" "What is 2+2?") eq_refl eq_refl
           ltac:(repeat constructor)).
Defined.

End EncoderProofs.

(** * Further properties of skill matching *)

Module MatchingProofs.
Import Skills SkillsProofs.

Lemma occurs_in_empty (s : string) : occurs_in "" s.
Proof. by exists "", s. Qed.

Lemma occurs_in_app (p s pre post : string) :
  occurs_in p s → occurs_in p (pre +:+ s +:+ post).
Proof.
  intros (a & b & ->). exists (pre +:+ a), (b +:+ post).
  by rewrite !ProviderProofs.append_assoc.
Qed.

Lemma occurs_in_trans (p q s : string) :
  occurs_in p q → occurs_in q s → occurs_in p s.
Proof. intros Hp (a & b & ->). by apply occurs_in_app. Qed.

Section Generic.
Variable lower : string → string.

Lemma mapM_lower_of_Some (items : list Atom) (ts : list string) :
  mapM (lower_of lower) items = Some ts →
  Forall (λ x, is_Some (text_of x)) items.
Proof.
  intros Hm%mapM_Some. induction Hm as [|x t items ts Hx _ IH]; [constructor|].
  constructor; [|done]. by destruct x.
Qed.

(** [items_to_check] returns on the complete descriptors only. *)
Lemma items_to_check_Some (skill : Skill) :
  is_Some (items_to_check lower skill) ↔ well_formed skill.
Proof.
  split; [|intros Hwf; rewrite items_of_well_formed by done; by eexists].
  intros [l Hl]. unfold items_to_check in Hl. unfold well_formed.
  destruct (name skill) as [|n|]; try done.
  destruct (description skill) as [|d|]; try done.
  cbn in Hl. destruct (iterate (tags skill)) as [items|]; [|done].
  cbn in Hl. destruct (mapM (lower_of lower) items) as [ts|] eqn:Hts; [|done].
  split; [by eexists|]. split; [by eexists|].
  exists items. split; [done|]. by eapply mapM_lower_of_Some.
Qed.

Lemma find_loop_Some (query_lower : string) (skills matched : list Skill) :
  is_Some (find_loop lower query_lower skills matched)
  ↔ Forall well_formed skills.
Proof.
  revert matched. induction skills as [|skill skills IH]; intros matched.
  - simpl. split; [constructor | by eexists].
  - cbn [find_loop]. rewrite Forall_cons, <- items_to_check_Some.
    destruct (items_to_check lower skill) as [items|]; simpl.
    + rewrite IH. split; [by split; [eexists|] | by intros [_ ?]].
    + split; [by intros [? ?] | by intros [[? ?] _]].
Qed.

(** One descriptor that is not complete (no name, no description, a
    [tags:] line left blank, a name, a description or a tag that is not a
    text) makes [find_skills] raise for every query, wherever the
    descriptor stands in the catalog and whatever the other descriptors
    are. *)
Theorem incomplete_descriptor_blocks_every_query (skills : list Skill)
    (skill : Skill) (query : string) :
  skill ∈ skills →
  ¬ well_formed skill →
  find_skills lower skills query = None.
Proof.
  intros Hin Hbad.
  destruct (find_skills lower skills query) as [matched|] eqn:Hfind; [|done].
  exfalso. apply Hbad.
  assert (Forall well_formed skills) as Hwf.
  { apply (find_loop_Some (lower query) skills []).
    unfold find_skills in Hfind. by rewrite Hfind. }
  rewrite Forall_forall in Hwf. by apply Hwf.
Qed.

(** In a catalog of complete descriptors, a skill with an empty name,
    description or tag is matched by every query, the empty one
    included. *)
Theorem empty_field_matches_every_query (skills : list Skill) (skill : Skill)
    (query : string) :
  lower "" = "" →
  Forall well_formed skills →
  skill ∈ skills →
  "" ∈ fields skill →
  ∃ matched, find_skills lower skills query = Some matched ∧ skill ∈ matched.
Proof.
  intros Hl Hwf Hin Hempty. unfold find_skills.
  rewrite find_loop_filter by done. eexists. split; [done|].
  cbn [app]. apply list_elem_of_filter. split; [|done].
  apply relatedb_spec. exists "". split; [done|].
  rewrite Hl. apply occurs_in_empty.
Qed.

(** Matching is monotone in the lower-cased query: when the lower-cased
    form of a query occurs in the lower-cased form of another, the skills
    matched for the first are matched for the second. *)
Theorem wider_query_keeps_matches (skills matched matched' : list Skill)
    (query query' : string) :
  occurs_in (lower query) (lower query') →
  find_skills lower skills query = Some matched →
  find_skills lower skills query' = Some matched' →
  matched ⊆ matched'.
Proof.
  intros Hocc Hm Hm'.
  unfold find_skills in *.
  assert (Forall well_formed skills) as Hwf.
  { apply (find_loop_Some (lower query) skills []). by rewrite Hm. }
  rewrite find_loop_filter in Hm, Hm' by done.
  injection Hm as <-. injection Hm' as <-. cbn [app].
  intros skill [Hrel Hin]%list_elem_of_filter.
  apply list_elem_of_filter. split; [|done].
  apply relatedb_spec. apply relatedb_spec in Hrel as (item & Hitem & Hitemocc).
  exists item. split; [done|]. by eapply occurs_in_trans.
Qed.

End Generic.

Import SkillScenarios PromptScenarios.

Lemma incomplete_descriptor_blocks_every_query_witness :
  find_skills ascii_lower [cleanup_skill; untagged_skill; weather_skill]
    "How do I CLEAN my desktop?" = None.
Proof.
  apply (incomplete_descriptor_blocks_every_query ascii_lower
           [cleanup_skill; untagged_skill; weather_skill] untagged_skill
           "How do I CLEAN my desktop?").
  - set_solver.
  - intros (_ & _ & items & Hitems & _). discriminate.
Defined.

Lemma empty_field_matches_every_query_witness :
  ∃ matched,
    find_skills ascii_lower [weather_skill; blank_skill] "What time is it?"
    = Some matched
    ∧ blank_skill ∈ matched.
Proof.
  exact (empty_field_matches_every_query ascii_lower
           [weather_skill; blank_skill] blank_skill "What time is it?"
           eq_refl
           ltac:(repeat constructor; eexists; try reflexivity;
                 repeat constructor; eexists; reflexivity)
           ltac:(repeat constructor)
           ltac:(repeat constructor)).
Defined.

Lemma wider_query_keeps_matches_witness :
  [cleanup_skill] ⊆ [cleanup_skill].
Proof.
  exact (wider_query_keeps_matches ascii_lower catalog
           [cleanup_skill] [cleanup_skill] "Clean"
           "How do I CLEAN my desktop?"
           (ex_intro _ "how do i " (ex_intro _ " my desktop?" eq_refl))
           eq_refl eq_refl).
Defined.

End MatchingProofs.

(** * Properties of prompt assembly *)

Module PromptProofs.
Import Skills SkillsProofs MatchingProofs Prompt.

Lemma occurs_in_refl (s : string) : occurs_in s s.
Proof.
  exists "", "". change (s = s +:+ "").
  by rewrite ProviderProofs.append_empty_r.
Qed.

Lemma occurs_in_app_l (p s t : string) : occurs_in p s → occurs_in p (s +:+ t).
Proof.
  intros Hp. pose proof (occurs_in_app p s "" t Hp) as Ho. exact Ho.
Qed.

Lemma occurs_in_app_r (p s t : string) : occurs_in p t → occurs_in p (s +:+ t).
Proof.
  intros (a & b & ->). exists (s +:+ a), b. by rewrite ProviderProofs.append_assoc.
Qed.

Lemma not_occurs_in (p s : string) : contains s p = false → ¬ occurs_in p s.
Proof. intros Hc Ho%contains_spec. congruence. Qed.

Lemma instructions_in_block (skill : Skill) :
  occurs_in (instructions skill) (skill_block skill).
Proof.
  unfold skill_block.
  do 8 apply occurs_in_app_r. apply occurs_in_app_l, occurs_in_refl.
Qed.

Lemma foldl_blocks_keep (p seg : string) (matched : list Skill) :
  occurs_in p seg →
  occurs_in p (foldl (λ seg skill, seg +:+ skill_block skill) seg matched).
Proof.
  revert seg. induction matched as [|m matched IH]; intros seg Hp; [done|].
  cbn [foldl]. by apply IH, occurs_in_app_l.
Qed.

Lemma foldl_blocks_occurs (skill : Skill) (seg : string)
    (matched : list Skill) :
  skill ∈ matched →
  occurs_in (instructions skill)
    (foldl (λ seg skill, seg +:+ skill_block skill) seg matched).
Proof.
  revert seg. induction matched as [|m matched IH]; intros seg Hin.
  - by apply elem_of_nil in Hin.
  - cbn [foldl]. apply elem_of_cons in Hin as [->|Hin].
    + apply foldl_blocks_keep, occurs_in_app_r, instructions_in_block.
    + by apply IH.
Qed.

Lemma segment_in (s0 : Skill) (skills matched : list Skill) (skill : Skill)
    (segment : string) :
  skill ∈ matched →
  get_system_prompt_segment (s0 :: skills) (Some matched) = Some segment →
  occurs_in (instructions skill) segment.
Proof.
  intros Hin. unfold get_system_prompt_segment.
  destruct matched as [|m matched]; [by apply elem_of_nil in Hin|].
  pose proof (foldl_blocks_occurs skill
    ((nl +:+ "### SPECIALIZED SKILLS" +:+ nl)
       +:+ "The following relevant skills have been dynamically loaded based on your request:"
       +:+ nl +:+ nl) (m :: matched) Hin) as Hocc.
  destruct (name <$> filter _ (s0 :: skills)) as [|n0 others].
  - by intros [= <-].
  - destruct (join_names (n0 :: others)) as [names|]; [|done].
    intros [= <-]. by apply occurs_in_app_l.
Qed.

(** When the catalog is not empty, the segment holds the instructions of
    every matched skill in full. *)
Theorem segment_holds_matched_instructions (skills matched : list Skill)
    (skill : Skill) (segment : string) :
  skills ≠ [] →
  skill ∈ matched →
  get_system_prompt_segment skills (Some matched) = Some segment →
  occurs_in (instructions skill) segment.
Proof.
  intros Hne Hin. destruct skills as [|s0 skills]; [done|].
  by apply segment_in.
Qed.

Lemma replace_from_no_occurrence (s old new : string) :
  contains s old = false → replace_from O s old new = s.
Proof.
  induction s as [|c s IH]; [done|].
  cbn [contains replace_from]. intros [Hp Hc]%orb_false_iff.
  rewrite Hp. by rewrite IH.
Qed.

Lemma replace_from_occurrence (s old new : string) :
  contains s old = true → old ≠ "" →
  occurs_in new (replace_from O s old new).
Proof.
  intros Hc Hold. induction s as [|c s IH].
  - cbn [contains] in Hc. rewrite orb_false_r in Hc.
    apply prefix_spec in Hc as [post Hp]. by destruct old.
  - cbn [contains replace_from] in *.
    destruct (String.prefix old (String c s)) eqn:Hp.
    + apply occurs_in_app_l, occurs_in_refl.
    + simpl in Hc. destruct (IH Hc) as (a & b & ->).
      by exists (String c a), b.
Qed.

Lemma join_names_Some (names : list Atom) :
  Forall (λ n, is_Some (text_of n)) names → is_Some (join_names names).
Proof.
  intros Hn. unfold join_names.
  assert (is_Some (mapM text_of names)) as [l ->]; [|by eexists].
  induction Hn as [|n names [x Hx] _ [l IH]]; [by eexists|].
  cbn. rewrite Hx, IH. by eexists.
Qed.

Lemma segment_Some (skills : list Skill) (matched : option (list Skill)) :
  Forall well_formed skills →
  is_Some (get_system_prompt_segment skills matched).
Proof.
  intros Hwf. unfold get_system_prompt_segment.
  destruct skills as [|s0 skills]; [by eexists|].
  assert (∀ l : list Skill, l ⊆ s0 :: skills →
            is_Some (join_names (name <$> l))) as Hjoin.
  { intros l Hl. apply join_names_Some, Forall_fmap, Forall_forall.
    intros s Hs. rewrite Forall_forall in Hwf.
    by destruct (Hwf s (Hl s Hs)) as [? _]. }
  destruct matched as [[|m matched]|].
  - destruct (Hjoin (s0 :: skills)) as [names ->]; [done|]. by eexists.
  - set (others := filter _ (s0 :: skills)).
    destruct (Hjoin others) as [names Hnames].
    { intros s Hs. by apply list_elem_of_filter in Hs as [_ ?]. }
    destruct (name <$> others); [by eexists|].
    rewrite Hnames. by eexists.
  - destruct (Hjoin (s0 :: skills)) as [names ->]; [done|]. by eexists.
Qed.

Section Generic.
Variable lower : string → string.
Variable files : gmap string string.
Variable skills : list Skill.

(** With the placeholder in [base.md] and a catalog of complete
    descriptors, the instructions of every skill the query matches are in
    the system prompt. *)
Theorem matched_skill_reaches_the_prompt (skill : Skill) (query : string) :
  contains (_load_file files "base.md") placeholder = true →
  truthy (Some query) = true →
  Forall well_formed skills →
  skill ∈ skills →
  relatedb lower query skill = true →
  ∃ prompt,
    get_full_system_prompt lower files skills (Some query) = Some prompt
    ∧ occurs_in (instructions skill) prompt.
Proof.
  intros Hbase Hq Hwf Hin Hrel. unfold get_full_system_prompt.
  rewrite Hq. change (default "" (Some query)) with query.
  unfold find_skills.
  rewrite find_loop_filter by done. cbn [app fmap option_fmap option_map
    mbind option_bind].
  set (matched := filter (λ s, relatedb lower query s = true) skills).
  assert (skill ∈ matched) as Hm by (by apply list_elem_of_filter).
  destruct (segment_Some skills (Some matched) Hwf) as [segment Hseg].
  rewrite Hseg. cbn [mbind option_bind]. eexists. split; [done|].
  apply occurs_in_app_l.
  apply (occurs_in_trans _ segment).
  - destruct skills as [|s0 skills']; [by apply elem_of_nil in Hin|].
    eapply segment_in; [exact Hm | exact Hseg].
  - by apply replace_from_occurrence.
Qed.

(** Without the placeholder in [base.md], in particular without the file,
    no skill reaches the system prompt: the prompt is the base prompt
    followed by the personality, whatever the query and the skills. *)
Theorem no_placeholder_no_skills (query : option string) (prompt : string) :
  contains (_load_file files "base.md") placeholder = false →
  get_full_system_prompt lower files skills query = Some prompt →
  prompt = _load_file files "base.md" +:+ personality (_load_file files "soul.md").
Proof.
  intros Hbase. unfold get_full_system_prompt.
  destruct (if truthy query then _ else _) as [matched|]; [|done].
  cbn [mbind option_bind].
  destruct (get_system_prompt_segment skills matched) as [segment|]; [|done].
  cbn [mbind option_bind]. intros [= <-]. unfold replace.
  by rewrite replace_from_no_occurrence.
Qed.

End Generic.

(** [read_skill] succeeds exactly when it is given a non-empty name that is
    the name of a loaded skill. *)
Theorem read_skill_succeeds_on_loaded_names (skills : list Skill)
    (skill_name : option string) :
  (∃ r, execute skills skill_name = Some r ∧ success r = true)
  ↔ truthy skill_name = true
    ∧ ∃ skill s, skill ∈ skills ∧ skill_name = Some s ∧ name skill = AStr s.
Proof.
  unfold execute, skills_get. destruct (truthy skill_name) eqn:Ht.
  - assert (skill_name = Some (default "" skill_name)) as Hs
      by (by destruct skill_name as [[|]|]).
    destruct (filter _ skills) as [|skill rest] eqn:Hf; cbn [head].
    + split.
      * intros (r & Hr & Hok).
        destruct (join_names (name <$> skills)); [|done].
        injection Hr as <-. done.
      * intros (_ & skill & s & Hin & Hsome & Hname).
        assert (skill ∈ filter (λ s, name s = AStr (default "" skill_name))
                           skills) as Hin'.
        { apply list_elem_of_filter. split; [|done].
          by rewrite Hname, Hsome. }
        rewrite Hf in Hin'. by apply elem_of_nil in Hin'.
    + split; [|by eexists].
      intros _. split; [done|]. exists skill, (default "" skill_name).
      assert (skill ∈ filter (λ s, name s = AStr (default "" skill_name))
                         skills) as Hin' by (rewrite Hf; by left).
      apply list_elem_of_filter in Hin' as [Hname Hin].
      split; [done|]. split; done.
  - split; [by intros (r & [= <-] & Hok) | by intros [? _]].
Qed.

Import SkillScenarios PromptScenarios.

Lemma segment_holds_matched_instructions_witness :
  occurs_in (instructions cleanup_skill)
    (default "" (get_system_prompt_segment catalog (Some [cleanup_skill]))).
Proof.
  exact (segment_holds_matched_instructions catalog [cleanup_skill]
           cleanup_skill _ ltac:(discriminate) ltac:(repeat constructor)
           eq_refl).
Defined.

Lemma matched_skill_reaches_the_prompt_witness :
  ∃ prompt,
    get_full_system_prompt ascii_lower prompt_files catalog
      (Some "How do I CLEAN my desktop?") = Some prompt
    ∧ occurs_in (instructions cleanup_skill) prompt.
Proof.
  exact (matched_skill_reaches_the_prompt ascii_lower prompt_files catalog
           cleanup_skill "How do I CLEAN my desktop?" eq_refl eq_refl
           ltac:(repeat constructor; eexists; try reflexivity;
                 repeat constructor; eexists; reflexivity)
           ltac:(repeat constructor) eq_refl).
Defined.

Lemma no_placeholder_no_skills_witness :
  default "" (get_full_system_prompt ascii_lower soul_only_files catalog
                (Some "How do I CLEAN my desktop?"))
  = _load_file soul_only_files "base.md"
    +:+ personality (_load_file soul_only_files "soul.md").
Proof.
  exact (no_placeholder_no_skills ascii_lower soul_only_files catalog
           (Some "How do I CLEAN my desktop?") _ eq_refl eq_refl).
Defined.

End PromptProofs.

(** * Properties of the API key manager *)

Module ApiKeysProofs.
Import ApiKeys.

(** ** Insertion-ordered dictionaries *)

Lemma dict_get_set {V} (j k : string) (v : V) (d : list (string * V)) :
  dict_get j (Json.dict_set k v d)
  = if decide (j = k) then Some v else dict_get j d.
Proof.
  induction d as [|[k' v'] d IH]; simpl.
  - by destruct (decide (j = k)).
  - destruct (decide (k = k')) as [->|Hne]; simpl.
    + by destruct (decide (j = k')).
    + destruct (decide (j = k')) as [->|]; simpl.
      * by rewrite decide_False by done.
      * apply IH.
Qed.

Lemma dict_get_del {V} (j k : string) (d : list (string * V)) :
  dict_get j (dict_del k d) = if decide (j = k) then None else dict_get j d.
Proof.
  unfold dict_del. induction d as [|[k' v'] d IH]; simpl.
  - by destruct (decide (j = k)).
  - destruct (decide (k' = k)) as [->|Hne].
    + rewrite filter_cons_False by (simpl; intros Hn; by apply Hn).
      rewrite IH. destruct (decide (j = k)); done.
    + rewrite filter_cons_True by done. simpl. rewrite IH.
      destruct (decide (j = k')) as [->|]; [|done].
      by rewrite decide_False.
Qed.

Lemma dict_get_None {V} (k : string) (d : list (string * V)) :
  dict_get k d = None ↔ k ∉ d.*1.
Proof.
  induction d as [|[k' v'] d IH].
  - split; [by intros _ ?%elem_of_nil | done].
  - rewrite fmap_cons, not_elem_of_cons. cbn [dict_get fst].
    destruct (decide (k = k')) as [->|Hne]; [by split; [|intros [? _]]|].
    rewrite IH. by split; [|intros [_ ?]].
Qed.

Lemma dict_set_keys {V} (k : string) (v : V) (d : list (string * V)) :
  (Json.dict_set k v d).*1
  = if decide (k ∈ d.*1) then d.*1 else d.*1 ++ [k].
Proof.
  induction d as [|[k' v'] d IH].
  - by rewrite decide_False by (by intros ?%elem_of_nil).
  - cbn [Json.dict_set]. destruct (decide (k = k')) as [->|Hne].
    + rewrite !fmap_cons. rewrite decide_True by (by left). done.
    + rewrite !fmap_cons, IH. cbn [fst].
      destruct (decide (k ∈ d.*1)) as [Hin|Hnin].
      * rewrite decide_True by (by right). done.
      * rewrite decide_False; [done|]. by intros [?|?]%elem_of_cons.
Qed.

Lemma dict_set_NoDup {V} (k : string) (v : V) (d : list (string * V)) :
  NoDup d.*1 → NoDup (Json.dict_set k v d).*1.
Proof.
  intros Hd. rewrite dict_set_keys. destruct (decide (k ∈ d.*1)); [done|].
  apply NoDup_app. repeat split; [done| |apply NoDup_singleton].
  intros x Hx ->%list_elem_of_singleton. done.
Qed.

Lemma dict_del_NoDup {V} (k : string) (d : list (string * V)) :
  NoDup d.*1 → NoDup (dict_del k d).*1.
Proof.
  unfold dict_del. induction d as [|[k' v'] d IH]; [done|].
  rewrite fmap_cons. intros [Hk Hd]%NoDup_cons.
  destruct (decide (k' = k)) as [->|Hne].
  - rewrite filter_cons_False by (simpl; intros Hn; by apply Hn). by apply IH.
  - rewrite filter_cons_True by done. rewrite fmap_cons.
    apply NoDup_cons. split; [|by apply IH].
    simpl in *. intros Hin. apply Hk.
    apply list_elem_of_fmap in Hin as ([k2 v2] & -> & Hin).
    apply list_elem_of_filter in Hin as [_ Hin].
    apply list_elem_of_fmap. by exists (k2, v2).
Qed.

Section Manager.
Variable _hash_key : string → string.

#[local] Abbreviation create := (create_key _hash_key).
#[local] Abbreviation validate := (validate_key _hash_key).

Lemma raw_key_accepted (token : string) :
  negb (truthy (Some ("clb_" +:+ token)))
  || negb (String.prefix "clb_" ("clb_" +:+ token)) = false.
Proof. by destruct token. Qed.

(** The expiry, when line 99 raises nothing. *)
Lemma expiry_Some (now : Z) (days : option Z) (e : option Z) :
  expiry now days = Some e →
  e = match days with
      | Some d => if bool_decide (d = 0) then None
                  else Some (now + d * microseconds_per_day)
      | None => None
      end.
Proof.
  unfold expiry, timedelta_days, datetime_add.
  destruct days as [d|]; [|by intros [= <-]].
  destruct (bool_decide (d = 0)); [by intros [= <-]|].
  repeat (case_decide; cbn); try done. by intros [= <-].
Qed.

(** Line 99 raises when the expiry falls out of the range of [datetime]:
    no key is created. *)
Lemma create_key_out_of_range (now : Z) (kid token nm : string)
    (perms : option (gset string)) (d : Z) (rl : option Z) (m : Manager) :
  d ≠ 0 →
  datetime_max < now + d * microseconds_per_day →
  create_key _hash_key now kid token nm perms (Some d) rl m = None.
Proof.
  intros Hd Hmax. unfold create_key, expiry, timedelta_days, datetime_add.
  rewrite bool_decide_eq_false_2 by done.
  repeat (case_decide; cbn); try done. lia.
Qed.

(** A key that was just created validates with the raw key returned, at
    any time up to its expiry, and at any time when [expires_days] is
    absent or zero; the key found has the name given, the permissions
    given (read and write when none or an empty set is given), and its
    last use is the time of the validation. *)
Theorem created_key_validates (now : Z) (kid token : string) (nm : string)
    (perms : option (gset string)) (days rl : option Z) (m m1 : Manager)
    (raw : string) (later : Z) :
  truthy (Some kid) = true →
  create_key _hash_key now kid token nm perms days rl m = Some (raw, m1) →
  usable_at now days later →
  ∃ k m',
    validate_key _hash_key later raw m1 = (Some k, m')
    ∧ key_id k = kid ∧ name k = nm ∧ last_used k = Some later
    ∧ permissions k = match perms with
                      | Some p => if bool_decide (p = ∅)
                                  then {["read"; "write"]} else p
                      | None => {["read"; "write"]}
                      end
    ∧ get_key kid m' = Some k.
Proof.
  intros Hkid Hcreate Huse. unfold create_key in Hcreate.
  destruct (expiry now days) as [e|] eqn:He; [|done].
  apply expiry_Some in He. subst e. cbn in Hcreate.
  injection Hcreate as <- <-. unfold validate_key.
  rewrite raw_key_accepted. cbn [_hash_to_key _keys].
  rewrite lookup_insert_eq, Hkid, dict_get_set, decide_True by done.
  assert (is_valid later
            {| key_id := kid; key_hash := _hash_key ("clb_" +:+ token);
               raw_key := Some ("clb_" +:+ token); name := nm;
               created_at := now;
               expires_at :=
                 match days with
                 | Some d => if bool_decide (d = 0) then None
                             else Some (now + d * microseconds_per_day)
                 | None => None
                 end;
               last_used := None;
               permissions :=
                 match perms with
                 | Some p => if bool_decide (p = ∅)
                             then {["read"; "write"]} else p
                 | None => {["read"; "write"]}
                 end;
               rate_limit := rl; enabled := true |} = true) as ->.
  { unfold is_valid, expired. cbn [enabled expires_at negb].
    destruct days as [d|]; [|done]. case_bool_decide; [done|].
    destruct Huse as [?|Hle]; [done|].
    by rewrite bool_decide_eq_false_2 by lia. }
  eexists _, _. split; [done|]. cbn [key_id name last_used permissions
    update_last_used]. repeat split.
  unfold get_key. cbn [_keys]. by rewrite dict_get_set, decide_True.
Qed.

Lemma validate_key_inv (now : Z) (raw : string) (m m' : Manager)
    (k : APIKey) :
  validate_key _hash_key now raw m = (Some k, m') →
  negb (truthy (Some raw)) || negb (String.prefix "clb_" raw) = false
  ∧ ∃ kid k0,
      _hash_to_key m !! _hash_key raw = Some kid
      ∧ truthy (Some kid) = true
      ∧ dict_get kid (_keys m) = Some k0
      ∧ is_valid now k0 = true
      ∧ k = update_last_used now k0
      ∧ m' = {| _keys := Json.dict_set kid k (_keys m);
                _hash_to_key := _hash_to_key m |}.
Proof.
  unfold validate_key.
  destruct (negb (truthy (Some raw)) || negb (String.prefix "clb_" raw));
    [done|].
  destruct (_hash_to_key m !! _hash_key raw) as [kid|] eqn:Hh; [|done].
  destruct (truthy (Some kid)) eqn:Hkid; [|done].
  destruct (dict_get kid (_keys m)) as [k0|] eqn:Hk; [|done].
  destruct (is_valid now k0) eqn:Hv; [|done].
  intros [= <- <-]. split; [done|]. by exists kid, k0.
Qed.

Lemma is_valid_inv (now : Z) (k : APIKey) :
  is_valid now k = true ↔
  enabled k = true ∧ ∀ e, expires_at k = Some e → now ≤ e.
Proof.
  unfold is_valid, expired. destruct (enabled k); cbn [negb].
  - destruct (expires_at k) as [e|].
    + case_bool_decide; split; try done.
      * intros [_ He]. specialize (He e eq_refl). lia.
      * intros _. split; [done|]. intros ? [= <-]. lia.
    + split; [|done]. intros _. by split.
  - split; [done | by intros [? _]].
Qed.

(** What [validate_key] returns is a stored key that is enabled and not
    expired, found through the hash of a raw key that starts with [clb_];
    the only change to the manager is the time of last use of that key. *)
Theorem validate_key_is_sound (now : Z) (raw : string) (m m' : Manager)
    (k : APIKey) :
  validate_key _hash_key now raw m = (Some k, m') →
  String.prefix "clb_" raw = true
  ∧ enabled k = true
  ∧ (∀ e, expires_at k = Some e → now ≤ e)
  ∧ last_used k = Some now
  ∧ ∃ kid k0,
      _hash_to_key m !! _hash_key raw = Some kid
      ∧ dict_get kid (_keys m) = Some k0
      ∧ k = update_last_used now k0
      ∧ _hash_to_key m' = _hash_to_key m
      ∧ ∀ j, dict_get j (_keys m')
             = if decide (j = kid) then Some k else dict_get j (_keys m).
Proof.
  intros (Hraw & kid & k0 & Hh & Hkid & Hk & Hv & -> & ->)%validate_key_inv.
  apply orb_false_iff in Hraw as [_ Hp%negb_false_iff].
  apply is_valid_inv in Hv as [He Hexp].
  repeat split; try done.
  exists kid, k0. repeat split; try done.
  intros j. cbn [_keys]. by rewrite dict_get_set.
Qed.

(** ** The invariant of the manager *)

Lemma consistent_update (m : Manager) (kid : string) (k0 k1 : APIKey) :
  consistent m →
  dict_get kid (_keys m) = Some k0 →
  key_id k1 = key_id k0 →
  key_hash k1 = key_hash k0 →
  consistent {| _keys := Json.dict_set kid k1 (_keys m);
                _hash_to_key := _hash_to_key m |}.
Proof.
  intros (Hnd & Hid & Hh & Hk) Hk0 Hid1 Hh1. unfold consistent.
  cbn [_keys _hash_to_key]. split; [by apply dict_set_NoDup|].
  split; [|split].
  - intros j k. rewrite dict_get_set.
    destruct (decide (j = kid)) as [->|]; [|apply Hid].
    intros [= <-]. rewrite Hid1. by apply Hid.
  - intros j k. rewrite dict_get_set.
    destruct (decide (j = kid)) as [->|]; [|apply Hh].
    intros [= <-]. rewrite Hh1. by apply Hh.
  - intros h j Hj. destruct (Hk h j Hj) as (k & Hkj & Hkh).
    rewrite dict_get_set. destruct (decide (j = kid)) as [->|]; [|by exists k].
    exists k1. split; [done|]. rewrite Hh1. congruence.
Qed.

Lemma consistent_delete (m : Manager) (kid : string) :
  consistent m →
  ∃ r, delete_key kid m = Some r ∧ consistent r.2
       ∧ r.1 = bool_decide (is_Some (dict_get kid (_keys m)))
       ∧ ∀ j, dict_get j (_keys r.2)
              = if decide (j = kid) then None else dict_get j (_keys m).
Proof.
  intros (Hnd & Hid & Hh & Hk). unfold delete_key.
  destruct (dict_get kid (_keys m)) as [k|] eqn:Hkid.
  - rewrite (Hh kid k Hkid). eexists. split; [done|]. cbn [fst snd].
    split; [|split].
    + unfold consistent. cbn [_keys _hash_to_key].
      split; [by apply dict_del_NoDup|]. split; [|split].
      * intros j k'. rewrite dict_get_del.
        destruct (decide (j = kid)); [done | apply Hid].
      * intros j k'. rewrite dict_get_del.
        destruct (decide (j = kid)) as [|Hne]; [done|]. intros Hj.
        rewrite lookup_delete_ne; [by apply Hh|].
        intros Heq. pose proof (Hh j k' Hj) as Hj'.
        rewrite <- Heq, (Hh kid k Hkid) in Hj'. congruence.
      * intros h j. intros [Hne Hj]%lookup_delete_Some.
        destruct (Hk h j Hj) as (k' & Hk' & Hh').
        exists k'. split; [|done]. rewrite dict_get_del.
        destruct (decide (j = kid)) as [->|]; [|done]. congruence.
    + rewrite bool_decide_eq_true_2; [done | by eexists].
    + intros j. cbn [_keys]. apply dict_get_del.
  - eexists. split; [done|]. cbn [fst snd]. split; [done|]. split.
    + rewrite bool_decide_eq_false_2; [done | by intros [? ?]].
    + intros j. destruct (decide (j = kid)) as [->|]; done.
Qed.

Lemma consistent_validate (now : Z) (raw : string) (m : Manager) :
  consistent m → consistent (validate_key _hash_key now raw m).2.
Proof.
  intros Hm.
  destruct (validate_key _hash_key now raw m) as [[k|] m'] eqn:Hv.
  - apply validate_key_inv in Hv
      as (_ & kid & k0 & Hh & Hkid & Hk & _ & -> & ->).
    by apply (consistent_update m kid k0).
  - unfold validate_key in Hv.
    repeat match type of Hv with
           | (if ?c then _ else _) = _ => destruct c
           | match ?c with _ => _ end = _ => destruct c
           end; try discriminate; by injection Hv as <-.
Qed.

Lemma consistent_revoke (kid : string) (m : Manager) :
  consistent m → consistent (revoke_key kid m).2.
Proof.
  intros Hm. unfold revoke_key.
  destruct (dict_get kid (_keys m)) as [k0|] eqn:Hk; [|done].
  by apply (consistent_update m kid k0).
Qed.

Lemma consistent_create (now : Z) (kid token nm : string)
    (perms : option (gset string)) (days rl : option Z) (m : Manager) :
  consistent m →
  dict_get kid (_keys m) = None →
  _hash_to_key m !! _hash_key ("clb_" +:+ token) = None →
  ∀ raw m',
    create_key _hash_key now kid token nm perms days rl m = Some (raw, m') →
    consistent m'.
Proof.
  intros (Hnd & Hid & Hh & Hk) Hfresh Hhash raw m' Hcreate.
  unfold create_key in Hcreate.
  destruct (expiry now days) as [e|]; [|done]. cbn in Hcreate.
  injection Hcreate as <- <-. unfold consistent.
  cbn [_keys _hash_to_key]. split; [by apply dict_set_NoDup|].
  split; [|split].
  - intros j k. rewrite dict_get_set.
    destruct (decide (j = kid)) as [->|]; [|apply Hid]. by intros [= <-].
  - intros j k. rewrite dict_get_set.
    destruct (decide (j = kid)) as [->|Hne].
    + intros [= <-]. cbn [key_hash]. apply lookup_insert_eq.
    + intros Hj. rewrite lookup_insert_ne; [by apply Hh|].
      intros Heq. pose proof (Hh j k Hj) as Hj'. congruence.
  - intros h j. rewrite lookup_insert.
    destruct (decide (_hash_key ("clb_" +:+ token) = h)) as [<-|Hne].
    + intros [= <-]. eexists. rewrite dict_get_set, decide_True by done. done.
    + intros Hj. destruct (Hk h j Hj) as (k & Hkj & Hkh).
      exists k. split; [|done]. rewrite dict_get_set.
      destruct (decide (j = kid)) as [->|]; [congruence | done].
Qed.

(** The two dictionaries of a manager stay in agreement: validating,
    revoking and deleting keep a consistent manager consistent, deleting
    never raises on it, and so does creating a key whose identifier and
    hash are new (when [create_key] raises, nothing is stored). *)
Theorem manager_stays_consistent (m : Manager) :
  consistent m →
  (∀ now raw, consistent (validate_key _hash_key now raw m).2)
  ∧ (∀ kid, consistent (revoke_key kid m).2)
  ∧ (∀ kid, ∃ r, delete_key kid m = Some r ∧ consistent r.2)
  ∧ (∀ now kid token nm perms days rl,
       dict_get kid (_keys m) = None →
       _hash_to_key m !! _hash_key ("clb_" +:+ token) = None →
       ∀ raw m',
         create_key _hash_key now kid token nm perms days rl m
         = Some (raw, m') →
         consistent m').
Proof.
  intros Hm. split; [|split; [|split]].
  - intros. by apply consistent_validate.
  - intros. by apply consistent_revoke.
  - intros kid. destruct (consistent_delete m kid Hm) as (r & Hr & Hc & _).
    by exists r.
  - intros. by eapply consistent_create.
Qed.

(** A key that validated is rejected once it has been revoked by its
    identifier, at any later time. *)
Theorem revoked_key_is_rejected (now later : Z) (raw : string)
    (m m' : Manager) (k : APIKey) :
  consistent m →
  validate_key _hash_key now raw m = (Some k, m') →
  (revoke_key (key_id k) m').1 = true
  ∧ (validate_key _hash_key later raw (revoke_key (key_id k) m').2).1 = None.
Proof.
  intros (Hnd & Hid & _) Hv.
  apply validate_key_inv in Hv
    as (Hraw & kid & k0 & Hh & Hkid & Hk & _ & -> & ->).
  assert (key_id (update_last_used now k0) = kid) as Hkk
    by (cbn [key_id update_last_used]; by apply Hid).
  rewrite Hkk. unfold revoke_key. cbn [_keys _hash_to_key].
  rewrite dict_get_set, decide_True by done. cbn [fst snd]. split; [done|].
  unfold validate_key. rewrite Hraw. cbn [_keys _hash_to_key].
  rewrite Hh, Hkid, dict_get_set, decide_True by done.
  unfold is_valid. cbn [enabled disable negb]. done.
Qed.

(** A key that validated is rejected once it has been deleted by its
    identifier; the deletion succeeds and the key can no longer be
    fetched. *)
Theorem deleted_key_is_rejected (now later : Z) (raw : string)
    (m m' : Manager) (k : APIKey) :
  consistent m →
  validate_key _hash_key now raw m = (Some k, m') →
  ∃ m'', delete_key (key_id k) m' = Some (true, m'')
         ∧ get_key (key_id k) m'' = None
         ∧ (validate_key _hash_key later raw m'').1 = None.
Proof.
  intros Hm Hv. pose proof (consistent_validate now raw m Hm) as Hm'.
  rewrite Hv in Hm'. cbn [snd] in Hm'.
  pose proof Hm as (_ & Hid & _).
  apply validate_key_inv in Hv
    as (Hraw & kid & k0 & Hh & Hkid & Hk & _ & -> & ->).
  assert (key_id (update_last_used now k0) = kid) as Hkk
    by (cbn [key_id update_last_used]; by apply Hid).
  rewrite Hkk. set (k := update_last_used now k0) in *.
  destruct Hm' as (_ & _ & Hh' & _).
  unfold delete_key. cbn [_keys _hash_to_key] in *.
  rewrite dict_get_set, decide_True by done.
  rewrite (Hh' kid k) by (by rewrite dict_get_set, decide_True).
  eexists. split; [done|]. split.
  - unfold get_key. cbn [_keys]. by rewrite dict_get_del, decide_True.
  - unfold validate_key. rewrite Hraw. cbn [_keys _hash_to_key].
    assert (key_hash k = _hash_key raw) as Hkh.
    { destruct Hm as (_ & _ & Hh0 & Hk0).
      destruct (Hk0 _ _ Hh) as (k1 & Hk1 & Hkh1).
      subst k. cbn [key_hash update_last_used]. congruence. }
    by rewrite Hkh, lookup_delete_eq.
Qed.

(** ** Cleaning up *)

Lemma dict_get_elem {V} (k : string) (v : V) (d : list (string * V)) :
  NoDup d.*1 → dict_get k d = Some v ↔ (k, v) ∈ d.
Proof.
  induction d as [|[k' v'] d IH]; [by split; [|intros ?%elem_of_nil]|].
  rewrite fmap_cons. intros [Hk Hd]%NoDup_cons. cbn [dict_get fst] in *.
  rewrite elem_of_cons. destruct (decide (k = k')) as [->|Hne].
  - split; [intros [= ->]; by left|]. intros [[= ->]|Hin]; [done|].
    exfalso. apply Hk. apply list_elem_of_fmap. by exists (k', v).
  - rewrite IH by done. split; [by right|]. by intros [[= ? ?]|?].
Qed.

Lemma expired_ids_elem (now : Z) (m : Manager) (j : string) :
  NoDup (_keys m).*1 →
  j ∈ expired_ids now m
  ↔ ∃ k, dict_get j (_keys m) = Some k ∧ expired now k = true.
Proof.
  intros Hnd. unfold expired_ids. rewrite list_elem_of_fmap. split.
  - intros ([j' k] & -> & [He Hin]%list_elem_of_filter).
    exists k. split; [by apply dict_get_elem | done].
  - intros (k & Hk%dict_get_elem & He); [|done].
    exists (j, k). split; [done|]. by apply list_elem_of_filter.
Qed.

Lemma expired_ids_length (now : Z) (m : Manager) :
  length (expired_ids now m)
  = length (filter (λ k, expired now k = true) (list_keys m)).
Proof.
  unfold expired_ids, list_keys. rewrite length_fmap.
  induction (_keys m) as [|[j k] d IH]; [done|].
  rewrite fmap_cons. cbn [snd].
  destruct (expired now k) eqn:He.
  - rewrite !filter_cons_True by done. cbn [length]. by rewrite IH.
  - rewrite !filter_cons_False by (cbn [snd]; congruence). done.
Qed.

Lemma delete_all_spec (ids : list string) (m : Manager) :
  consistent m →
  ∃ m', delete_all ids m = Some m' ∧ consistent m'
        ∧ ∀ j, dict_get j (_keys m')
               = if decide (j ∈ ids) then None else dict_get j (_keys m).
Proof.
  revert m. induction ids as [|kid ids IH]; intros m Hm.
  - exists m. split; [done|]. split; [done|]. intros j.
    by rewrite decide_False by (by intros ?%elem_of_nil).
  - cbn [delete_all].
    destruct (consistent_delete m kid Hm) as (r & -> & Hr & _ & Hget).
    cbn [mbind option_bind].
    destruct (IH r.2 Hr) as (m' & -> & Hm' & Hget').
    exists m'. split; [done|]. split; [done|]. intros j.
    rewrite Hget', Hget.
    destruct (decide (j = kid)) as [->|Hne].
    + rewrite (decide_True (P := kid ∈ kid :: ids)) by (by left).
      by destruct (decide (kid ∈ ids)).
    + destruct (decide (j ∈ ids)) as [Hin|Hnin].
      * by rewrite decide_True by (by right).
      * rewrite decide_False; [done|]. by intros [?|?]%elem_of_cons.
Qed.

(** On a consistent manager [cleanup_expired] does not raise: it returns
    the number of keys that were expired, and afterwards the manager holds
    exactly the keys that were not, unchanged, in agreement with its
    hashes. *)
Theorem cleanup_removes_the_expired_keys (now : Z) (m : Manager) :
  consistent m →
  ∃ m',
    cleanup_expired now m
    = Some (Z.of_nat (length (filter (λ k, expired now k = true)
                                     (list_keys m))), m')
    ∧ consistent m'
    ∧ ∀ kid, get_key kid m'
             = match get_key kid m with
               | Some k => if expired now k then None else Some k
               | None => None
               end.
Proof.
  intros Hm. unfold cleanup_expired.
  destruct (delete_all_spec (expired_ids now m) m Hm) as (m' & -> & Hm' & Hg).
  exists m'. cbn [mbind option_bind]. rewrite expired_ids_length.
  split; [done|]. split; [done|]. intros kid. unfold get_key. rewrite Hg.
  destruct Hm as (Hnd & _).
  destruct (decide (kid ∈ expired_ids now m)) as [Hin|Hnin].
  - apply expired_ids_elem in Hin as (k & -> & ->); done.
  - destruct (dict_get kid (_keys m)) as [k|] eqn:Hk; [|done].
    destruct (expired now k) eqn:He; [|done].
    exfalso. apply Hnin. apply expired_ids_elem; [done|]. by exists k.
Qed.

End Manager.

Lemma empty_manager_consistent : consistent empty_manager.
Proof.
  unfold consistent, empty_manager. cbn [_keys _hash_to_key].
  split; [constructor|]. split; [done|]. split; [done|].
  intros h kid Hh. by rewrite lookup_empty in Hh.
Qed.

Import ApiKeysScenarios.

Lemma one_key_manager_created :
  create_key plain_hash 1000 "k1" "s3cr3t" "ci" None (Some 1) None
    empty_manager
  = Some ("clb_s3cr3t", one_key_manager).
Proof. reflexivity. Qed.

Lemma one_key_manager_consistent : consistent one_key_manager.
Proof.
  eapply (consistent_create plain_hash 1000 "k1" "s3cr3t" "ci" None (Some 1)
            None empty_manager);
    [apply empty_manager_consistent | done | done |
     apply one_key_manager_created].
Qed.

Lemma created_key_validates_witness :
  ∃ k m',
    validate_key plain_hash 2000 "clb_s3cr3t" one_key_manager = (Some k, m')
    ∧ key_id k = "k1" ∧ name k = "ci" ∧ last_used k = Some 2000
    ∧ permissions k = {["read"; "write"]}
    ∧ get_key "k1" m' = Some k.
Proof.
  exact (created_key_validates plain_hash 1000 "k1" "s3cr3t" "ci" None
           (Some 1) None empty_manager one_key_manager "clb_s3cr3t" 2000
           eq_refl eq_refl
           ltac:(right; unfold microseconds_per_day; lia)).
Defined.

Lemma validate_key_is_sound_witness :
  String.prefix "clb_" "clb_s3cr3t" = true
  ∧ enabled (update_last_used 2000 first_key) = true
  ∧ (∀ e, expires_at (update_last_used 2000 first_key) = Some e → 2000 ≤ e)
  ∧ last_used (update_last_used 2000 first_key) = Some 2000
  ∧ ∃ kid k0,
      _hash_to_key one_key_manager !! plain_hash "clb_s3cr3t" = Some kid
      ∧ dict_get kid (_keys one_key_manager) = Some k0
      ∧ update_last_used 2000 first_key = update_last_used 2000 k0
      ∧ _hash_to_key used_manager = _hash_to_key one_key_manager
      ∧ ∀ j, dict_get j (_keys used_manager)
             = if decide (j = kid) then Some (update_last_used 2000 first_key)
               else dict_get j (_keys one_key_manager).
Proof.
  exact (validate_key_is_sound plain_hash 2000 "clb_s3cr3t" one_key_manager
           used_manager (update_last_used 2000 first_key) eq_refl).
Defined.

Lemma manager_stays_consistent_witness :
  (∀ now raw, consistent (validate_key plain_hash now raw one_key_manager).2)
  ∧ (∀ kid, consistent (revoke_key kid one_key_manager).2)
  ∧ (∀ kid, ∃ r, delete_key kid one_key_manager = Some r ∧ consistent r.2)
  ∧ (∀ now kid token nm perms days rl,
       dict_get kid (_keys one_key_manager) = None →
       _hash_to_key one_key_manager !! plain_hash ("clb_" +:+ token) = None →
       ∀ raw m',
         create_key plain_hash now kid token nm perms days rl one_key_manager
         = Some (raw, m') →
         consistent m').
Proof.
  exact (manager_stays_consistent plain_hash one_key_manager
           one_key_manager_consistent).
Defined.

Lemma revoked_key_is_rejected_witness :
  (revoke_key "k1" used_manager).1 = true
  ∧ (validate_key plain_hash 3000 "clb_s3cr3t"
       (revoke_key "k1" used_manager).2).1 = None.
Proof.
  exact (revoked_key_is_rejected plain_hash 2000 3000 "clb_s3cr3t"
           one_key_manager used_manager (update_last_used 2000 first_key)
           one_key_manager_consistent eq_refl).
Defined.

Lemma deleted_key_is_rejected_witness :
  ∃ m'', delete_key "k1" used_manager = Some (true, m'')
         ∧ get_key "k1" m'' = None
         ∧ (validate_key plain_hash 3000 "clb_s3cr3t" m'').1 = None.
Proof.
  exact (deleted_key_is_rejected plain_hash 2000 3000 "clb_s3cr3t"
           one_key_manager used_manager (update_last_used 2000 first_key)
           one_key_manager_consistent eq_refl).
Defined.

Lemma cleanup_removes_the_expired_keys_witness :
  ∃ m',
    cleanup_expired (1000 + 2 * microseconds_per_day) one_key_manager
    = Some (Z.of_nat
              (length (filter
                         (λ k, expired (1000 + 2 * microseconds_per_day) k
                               = true)
                         (list_keys one_key_manager))), m')
    ∧ consistent m'
    ∧ ∀ kid, get_key kid m'
             = match get_key kid one_key_manager with
               | Some k =>
                   if expired (1000 + 2 * microseconds_per_day) k
                   then None else Some k
               | None => None
               end.
Proof.
  exact (cleanup_removes_the_expired_keys
           (1000 + 2 * microseconds_per_day) one_key_manager
           one_key_manager_consistent).
Defined.

End ApiKeysProofs.
